(** * kdep projects and dep workspaces: package-tree composition and
    constraint aggregation

    A shallow embedding of [internal/kdep/project.go] (package [kdep]) and of
    the workspace command that follows it in the same source file (package
    [main]), with the properties of their specification stated against it.

    Go maps are [gmap]s; a [range] over a map is a left fold over an
    enumeration of its entries, and the lemmas below show where the
    enumeration order is immaterial.  Pointers that the source leaves or
    tests as [nil] are [option]s; dereferencing [None] is [Panic]. *)

From Stdlib Require Import ZArith String List Bool Lia.
From Stdlib Require Import Sorting.Permutation Sorting.Sorted.
From stdpp Require Import base option list gmap strings fin_maps.

Set Implicit Arguments.
Set Maximal Implicit Insertion.

(** ** Results of fallible Go code *)

(** A Go call returns its value, returns an [error], or panics (nil
    dereference). *)
Inductive outcome (A : Type) : Type :=
  | Ok (a : A)
  | Err (e : string)
  | Panic.
Arguments Err {A} e.
Arguments Panic {A}.

Definition obind {A B} (m : outcome A) (k : A → outcome B) : outcome B :=
  match m with
  | Ok a => k a
  | Err e => Err e
  | Panic => Panic
  end.

#[global] Instance outcome_bind : MBind outcome := λ A B k m, obind m k.
#[global] Instance outcome_ret : MRet outcome := λ A a, Ok a.

(** [deref] models [p.f] on a pointer [p]. *)
Definition deref {A} (p : option A) : outcome A :=
  match p with
  | Some a => Ok a
  | None => Panic
  end.

(** A [for _, x := range xs] loop whose body may return early or panic. *)
Fixpoint for_each {M} `{!MBind M, !MRet M} {S A}
    (body : S → A → M S) (s : S) (xs : list A) : M S :=
  match xs with
  | [] => mret s
  | x :: xs' => s' ← body s x; for_each body s' xs'
  end.

(** [for k, v := range m]: Go visits the entries in an unspecified order;
    [range_map] visits them in the order of [map_to_list]. *)
Definition range_map {V S} (body : S → string * V → S) (s : S)
    (m : gmap string V) : S :=
  foldl body s (map_to_list m).

(** ** The [gps] and [dep] types the source works on *)

Module gps.

(** [gps.Constraint] is an interface; the source uses its [Intersect]. *)
Class Constraint (C : Type) := Intersect : C → C → C.

(** [gps.ProjectProperties] is a struct, held by value in
    [gps.ProjectConstraints = map[ProjectRoot]ProjectProperties]. *)
Record ProjectProperties (C : Type) := mkProps {
  Source : string;
  Constraint_ : C;
}.

Abbreviation ProjectConstraints C := (gmap string (ProjectProperties C)).

(** [pkgtree.PackageOrErr]: a parsed package (its direct imports) or the
    error met when parsing it. *)
Inductive PackageOrErr :=
  | P (imports : list string)
  | PErr (err : string).

(** [pkgtree.PackageTree]. *)
Record PackageTree := mkTree {
  ImportRoot : string;
  Packages : gmap string PackageOrErr;
}.

(** A version as [gps.VersionComponentStrings] decomposes it:
    revision, branch and version strings. *)
Record Version := mkVersion {
  rev : string;
  branch : string;
  ver : string;
}.

Definition VersionComponentStrings (v : Version) : string * string * string :=
  (rev v, branch v, ver v).

(** [gps.LockedProject], as read through [Ident().ProjectRoot],
    [Version()] and [Packages()]. *)
Record LockedProject := mkLP {
  ProjectRoot : string;
  Version_ : Version;
  Pkgs : list string;
}.

(** [gps.Solution], as read through [Projects()]. *)
Definition Solution := list LockedProject.

End gps.

Module dep.
Import gps.

(** [dep.Manifest], as read through the [gps.RootManifest] methods. *)
Record Manifest (C : Type) := mkManifest {
  DependencyConstraints : ProjectConstraints C;
  Overrides : ProjectConstraints C;
  IgnoredPackages : list string;
  RequiredPackages : gmap string bool;
}.

(** [dep.Lock]: the projects of the previous solution. *)
Definition Lock := list LockedProject.

(** [dep.Project].  [parsed] is what dep's own [ParseRootPackageTree]
    method returns for the project's source directory: a tree and an optional
    error. *)
Record Project (C : Type) := mkProject {
  AbsRoot : string;
  ResolvedAbsRoot : string;
  ImportRoot : string;
  Manifest_ : Manifest C;
  Lock_ : option Lock;
  parsed : PackageTree * option string;
}.

Definition ParseRootPackageTree {C} (p : Project C)
  : PackageTree * option string := parsed p.

End dep.

(** ** What both packages take from the file system and their imports *)

(** [x, _ := f()]: the error is dropped and [x] is [nil]. *)
Definition ignore_err {A} (r : outcome A) : outcome (option A) :=
  match r with
  | Ok a => Ok (Some a)
  | Err _ => Ok None
  | Panic => Panic
  end.

(** [errors.Wrap(err, msg)]. *)
Definition Wrap (e msg : string) : string := msg +:+ ": " +:+ e.

(** [strings.HasPrefix(s, prefix)]. *)
Definition HasPrefix (s pre : string) : bool := String.prefix pre s.

(** The functions of [path/filepath], [os] and [dep.Ctx] the source calls.
    [Open p] is the content of the file at [p] or the error of reading it;
    [LoadProject d] is [ctx.LoadProject()] with [ctx.WorkingDir = d]. *)
Record World (C : Type) := mkWorld {
  Join : list string → string;
  Dir : string → string;
  Rel : string → string → string;
  Stat : string → bool;
  Open : string → outcome string;
  LoadProject : string → outcome (dep.Project C);
}.

(** ** Package [main]: the workspace command *)

Module workspace.
Import gps.

Definition ManifestName : string := "Gows.toml".

Record rawPackage := mkRawPackage {
  Name : string;
  Path : string;
}.

Record rawManifest := mkRawManifest {
  rawPackages : list rawPackage;
}.

(** [gps.CascadingPruneOptions]; a [gps.PruneOptions] value is a set of
    bit flags. *)
Record CascadingPruneOptions := mkPrune {
  DefaultOptions : Z;
  PerProjectOptions : gmap string Z;
}.

(** The three [gps] prune flags that the source names. *)
Record PruneFlags := mkPruneFlags {
  PruneNestedVendorDirs : Z;
  PruneGoTestFiles : Z;
  PruneUnusedPackages : Z;
}.

Record Manifest := mkManifest {
  Packages : list rawPackage;
  PruneOptions : CascadingPruneOptions;
}.

Definition fromRawManifest (F : PruneFlags) (raw : rawManifest) : Manifest :=
  {| Packages := rawPackages raw;
     PruneOptions :=
       {| DefaultOptions :=
            Z.lor (Z.lor (PruneNestedVendorDirs F) (PruneGoTestFiles F))
                  (PruneUnusedPackages F);
          PerProjectOptions := ∅ |} |}.

(** [readManifest r]: [r] is the reader's content or its read error;
    [Unmarshal] is [toml.Unmarshal] into a [rawManifest]. *)
Definition readManifest (F : PruneFlags)
    (Unmarshal : string → outcome rawManifest) (r : outcome string)
  : outcome Manifest :=
  match r with
  | Err e => Err (Wrap e "unable to read byte stream")
  | Panic => Panic
  | Ok buf =>
      match Unmarshal buf with
      | Err e => Err (Wrap e "unable to parse the manifest as TOML")
      | Panic => Panic
      | Ok raw =>
          let m := fromRawManifest F raw in
          (* [err] is nil here, so [if err != nil] is not taken *)
          Ok m
      end
  end.

Section WithConstraint.
Context {C : Type} `{!Constraint C}.

(** The libraries and collaborators of package [main]. *)
Record Env := mkEnv {
  world : World C;
  flags : PruneFlags;
  Unmarshal : string → outcome rawManifest;
  LockName : string;
  ReadLock : string → outcome dep.Lock;
}.

Definition NewManifest (E : Env) (root : string) : outcome (option Manifest) :=
  let mp := Join (world E) [root; ManifestName] in
  let mf := Open (world E) mp in
  ignore_err (readManifest (flags E) (Unmarshal E) mf).

Definition NewLock (E : Env) (root : string) : outcome (option dep.Lock) :=
  let mp := Join (world E) [root; LockName E] in
  match Open (world E) mp with
  | Ok mf => ignore_err (ReadLock E mf)
  | Err _ => Ok None
  | Panic => Panic
  end.

(** [getProjects]: [m] is the receiver, [wd] is [ctx.WorkingDir]. *)
Definition getProjects (E : Env) (m : option Manifest) (wd : string)
  : outcome (list (option (dep.Project C))) :=
  m ← deref m;
  for_each
    (λ projects pck,
       p ← ignore_err (LoadProject (world E) (Join (world E) [wd; Path pck]));
       Ok (projects ++ [p]))
    [] (Packages m).

Record Workspace := mkWorkspace {
  AbsRoot : string;
  Lock : option dep.Lock;
  Manifest_ : option Manifest;
  Projects : list (option (dep.Project C));
}.

Definition NewWorkspace (E : Env) (wd : string) : outcome Workspace :=
  m ← NewManifest E wd;
  l ← NewLock E wd;
  projects ← getProjects E m wd;
  Ok {| AbsRoot := wd; Lock := l; Manifest_ := m; Projects := projects |}.

(** The body of the inner loop of [DependencyConstraints] and
    [Overrides].  [p] is a copy of the struct stored in the map, and the
    assignment to [p.Constraint] changes that copy only. *)
Definition merge_entry (constraints : ProjectConstraints C)
    (e : string * ProjectProperties C) : ProjectConstraints C :=
  let '(root, props) := e in
  match constraints !! root with
  | Some p =>
      let p := {| Source := Source p;
                  Constraint_ := Intersect (Constraint_ p) (Constraint_ props) |} in
      constraints
  | None => <[root := props]> constraints
  end.

Definition aggregate (get : dep.Manifest C → ProjectConstraints C)
    (w : Workspace) : outcome (ProjectConstraints C) :=
  for_each
    (λ constraints p,
       p ← deref p;
       let extra := get (dep.Manifest_ p) in
       Ok (range_map merge_entry constraints extra))
    ∅ (Projects w).

Definition DependencyConstraints (w : Workspace) :=
  aggregate dep.DependencyConstraints w.

Definition Overrides (w : Workspace) :=
  aggregate dep.Overrides w.

Definition IgnoredPackages (w : Workspace) : outcome (list string) :=
  m ← deref (Manifest_ w);
  Ok (map (λ p, Name p +:+ "/*") (Packages m)).

Definition RequiredPackages (w : Workspace) : outcome (gmap string bool) :=
  for_each
    (λ required p,
       p ← deref p;
       Ok (range_map (λ required '(k, v), <[k := v]> required) required
             (dep.RequiredPackages (dep.Manifest_ p))))
    ∅ (Projects w).

(** [gps.SolveParameters]; [ProjectAnalyzer] is the constant
    [dep.Analyzer{}]. *)
Record SolveParameters := mkParams {
  RootDir : string;
  RootManifest : Workspace;
  ParamsLock : option dep.Lock;
  RootPackageTree : PackageTree;
  TraceLogger : bool;
}.

Definition emptyTree : PackageTree := mkTree "" ∅.

Definition MakeParams (w : Workspace) : SolveParameters :=
  {| RootDir := AbsRoot w;
     RootManifest := w;
     ParamsLock := match Lock w with Some l => Some l | None => None end;
     RootPackageTree := emptyTree;
     TraceLogger := false |}.

Definition copy_entry (tree : gmap string PackageOrErr)
    (e : string * PackageOrErr) : gmap string PackageOrErr :=
  let '(imp, pack) := e in <[imp := pack]> tree.

Definition ParseRootPackageTree (w : Workspace) : outcome PackageTree :=
  pkgs ← for_each
    (λ pkgs p,
       p ← deref p;
       let '(t, _) := dep.ParseRootPackageTree p in
       Ok (range_map copy_entry pkgs (gps.Packages t)))
    ∅ (Projects w);
  Ok (mkTree (AbsRoot w) pkgs).


(** *** The command *)

(** What [Run] prints and what it hands to its collaborators, in order. *)
Inductive event :=
  | Println (msg : string)
  | Prepare (params : SolveParameters)
  | Solve (params : SolveParameters)
  | PrintPreparedActions
  | SafeWrite (root : string)
  | Symlink (oldname newname : string)
  | MkdirAll (dir : string).

(** The collaborators of [Run] outside this file; each [option string]
    is the error the call returns. *)
Record Collab := mkCollab {
  SourceManager : option string;
  ValidateProjectRoots : dep.Manifest C → option string;
  checkErrors : gmap string PackageOrErr → list string → bool * option string;
  ValidateParams : SolveParameters → option string;
  gpsPrepare : SolveParameters → option string;
  solverSolve : SolveParameters → outcome Solution;
  handleAllTheFailuresOfTheWorld : string → option string;
  NewSafeWriter :
    option dep.Lock → Solution → CascadingPruneOptions → option string;
  swPrintPreparedActions : option string;
  swWrite : string → option string;
}.

(** [Run] is a computation over the log of events. *)
Definition prog (A : Type) : Type := list event → list event * outcome A.

#[local] Instance prog_bind : MBind prog := λ A B k m log,
  match m log with
  | (log', Ok a) => k a log'
  | (log', Err e) => (log', Err e)
  | (log', Panic) => (log', Panic)
  end.
#[local] Instance prog_ret : MRet prog := λ A a log, (log, Ok a).

Definition emit (e : event) : prog unit := λ log, (log ++ [e], Ok tt).
Definition lift {A} (o : outcome A) : prog A := λ log, (log, o).

(** [if err != nil { return err }]. *)
Definition check (err : option string) : prog unit :=
  match err with
  | Some e => lift (Err e)
  | None => mret tt
  end.

Record Ctx := mkCtx {
  WorkingDir : string;
  Verbose : bool;
}.

Definition validate_roots (K : Collab) (w : Workspace) : prog unit :=
  for_each
    (λ _ p, p ← lift (deref p);
            check (ValidateProjectRoots K (dep.Manifest_ p)))
    tt (Projects w).

Definition check_packages (K : Collab) (ctx : Ctx)
    (params : SolveParameters) (w : Workspace) : prog unit :=
  for_each
    (λ _ p,
       p ← lift (deref p);
       let '(fatal, err) :=
         checkErrors K (gps.Packages (RootPackageTree params))
           (dep.IgnoredPackages (dep.Manifest_ p)) in
       match err with
       | Some e =>
           if fatal then lift (Err e)
           else if Verbose ctx then emit (Println e)
           else mret tt
       | None => mret tt
       end)
    tt (Projects w).

Definition link_vendor (E : Env) (w : Workspace) (m : Manifest) : prog unit :=
  let vendorPath := Join (world E) [AbsRoot w; "vendor"] in
  for_each
    (λ _ p,
       let projectRoot := Join (world E) [AbsRoot w; Path p] in
       let relVendorPath := Rel (world E) projectRoot vendorPath in
       _ ← emit (Symlink relVendorPath (Join (world E) [projectRoot; "vendor"]));
       let vendorProjectPath := Join (world E) [vendorPath; Name p] in
       let vendorProjectDirPath := Dir (world E) vendorProjectPath in
       _ ← emit (MkdirAll vendorProjectDirPath);
       let relVendorProjectPath :=
         Rel (world E) vendorProjectDirPath projectRoot in
       emit (Symlink relVendorProjectPath vendorProjectPath))
    tt (Packages m).

Definition Run (E : Env) (K : Collab) (dryRun : bool) (ctx : Ctx)
    (args : list string) : prog unit :=
  w ← lift (NewWorkspace E (WorkingDir ctx));
  _ ← check (SourceManager K);
  _ ← validate_roots K w;
  let params := MakeParams w in
  let params :=
    if Verbose ctx
    then mkParams (RootDir params) (RootManifest params) (ParamsLock params)
                  (RootPackageTree params) true
    else params in
  tree ← lift (ParseRootPackageTree w);
  let params :=
    mkParams (RootDir params) (RootManifest params) (ParamsLock params)
             tree (TraceLogger params) in
  _ ← check_packages K ctx params w;
  _ ← (if bool_decide (length args ≠ 0)
       then lift (Err "dep workspace only takes spec arguments with -add or -update")
       else mret tt);
  _ ← check (ValidateParams K params);
  _ ← emit (Prepare params);
  _ ← check ((λ e, Wrap e "prepare solver") <$> gpsPrepare K params);
  _ ← emit (Solve params);
  match solverSolve K params with
  | Panic => lift Panic
  | Err e => check (handleAllTheFailuresOfTheWorld K e)
  | Ok solution =>
      m ← lift (deref (Manifest_ w));
      _ ← check (NewSafeWriter K (Lock w) solution (PruneOptions m));
      if dryRun then
        _ ← emit PrintPreparedActions;
        check (swPrintPreparedActions K)
      else
        _ ← emit (SafeWrite (AbsRoot w));
        _ ← check ((λ e, Wrap e "grouped write of manifest, lock and vendor")
                      <$> swWrite K (AbsRoot w));
        link_vendor E w m
  end.

End WithConstraint.
Arguments Env C : clear implicits.
Arguments Collab C : clear implicits.
Arguments Workspace C : clear implicits.
Arguments SolveParameters C : clear implicits.
End workspace.

(** ** Package [kdep]: projects with local sub-projects *)

(** The contract of [sort.Slice]: the slice is permuted so that no element
    is less than one before it, for a [less] that is a strict weak order.
    The sort need not be stable. *)
Record StrictWeakOrder {A} (less : A → A → bool) : Prop := {
  swo_irrefl : ∀ a, less a a = false;
  swo_trans : ∀ a b c, less a b = true → less b c = true → less a c = true;
  swo_neg_trans :
    ∀ a b c, less a b = false → less b c = false → less a c = false;
}.

Class SortSlice := {
  sort_Slice : ∀ A, (A → A → bool) → list A → list A;
  sort_Slice_perm : ∀ A (less : A → A → bool) l,
    Permutation l (sort_Slice less l);
  sort_Slice_sorted : ∀ A (less : A → A → bool) l,
    StrictWeakOrder less →
    StronglySorted (λ a b, less b a = false) (sort_Slice less l);
}.

Module kdep.
Import gps.

Record Meta := mkMeta {
  IsKdepRoot : bool;
  IsKdepChild : bool;
  GodepCompat : bool;
  LocalDeps : list string;
  LocalGopaths : list string;
}.

Record godep := mkDependency {
  depImportPath : string;
  depComment : string;
  Rev : string;
}.

Record godeps := mkGodeps {
  Comment : string;
  ImportPath : string;
  Deps : list godep;
}.

(** [dependencies.DepsBuilder]. *)
Record DepsBuilder := mkDepsBuilder {
  Root : string;
  Package : string;
  LocalPackages : list string;
  SkipSubdirs : list string;
}.

(** The comparison handed to [sort.Slice]:
    [strings.Compare(a.ImportPath, b.ImportPath) < 0]. *)
Definition less (a b : godep) : bool :=
  String.ltb (depImportPath a) (depImportPath b).

Section WithConstraint.
(** [C] is the constraint type, [D] what
    [DepsBuilder.GetPackageDependencies] returns. *)
Context {C D : Type} `{!Constraint C}.

(** [kdep.Manifest], with the fields this file reads and writes. *)
Record Manifest := mkManifest {
  Meta_ : Meta;
  SubManifests : gmap string (dep.Manifest C);
  Dependencies : option D;
}.

Record Project := mkProject {
  Project_ : option (dep.Project C);
  Manifest_ : Manifest;
  SubProjects : list (option (dep.Project C));
  extraVendorEntries : gmap string string;
}.

(** [gps.SolveParameters]; its [Manifest] is an interface value. *)
Inductive RootManifest :=
  | DepManifest (m : dep.Manifest C)
  | KdepManifest (m : Manifest).

Record SolveParameters := mkParams {
  RootDir : string;
  ParamsManifest : RootManifest;
  ParamsLock : option dep.Lock;
}.

(** The libraries and collaborators of package [kdep].  [WriteErr f] is
    the error of [ioutil.WriteFile] at path [f], if any, with the number of
    bytes written before it, or [None] when the file could not be opened. *)
Record Env := mkEnv {
  world : World C;
  manifestFromProject : option (dep.Project C) → option Manifest;
  WrapManifest : option (dep.Manifest C) → Manifest;
  GetPackageDependencies : DepsBuilder → outcome D;
  depMakeParams : dep.Project C → SolveParameters;
  MarshalIndent : godeps → outcome string;
  WriteErr : string → option (string * option nat);
}.

Definition set_ImportRoot (proj : dep.Project C) (r : string) : dep.Project C :=
  dep.mkProject (dep.AbsRoot proj) (dep.ResolvedAbsRoot proj) r
    (dep.Manifest_ proj) (dep.Lock_ proj) (dep.parsed proj).

(** The inner loop of [WrapProject]: the first gopath under which [sub]
    exists, with the project loaded there. *)
Fixpoint locate (E : Env) (root sub : string) (gopaths : list string)
  : outcome (option (dep.Project C * string)) :=
  match gopaths with
  | [] => Ok None
  | path :: rest =>
      let candidate := Join (world E) [root; path; "src"; sub] in
      if Stat (world E) candidate then
        proj ← LoadProject (world E) candidate;
        Ok (Some (set_ImportRoot proj sub, candidate))
      else locate E root sub rest
  end.

(** The state of the outer loop: [sps], [sms] and [extra]. *)
Definition locate_all (E : Env) (root : string) (m : Manifest)
  : outcome (list (option (dep.Project C))
             * gmap string (dep.Manifest C) * gmap string string) :=
  for_each
    (λ '(sps, sms, extra) sub,
       found ← locate E root sub (LocalGopaths (Meta_ m));
       match found with
       | Some (proj, candidate) =>
           let imp := dep.ImportRoot proj in
           Ok (sps ++ [Some proj], <[imp := dep.Manifest_ proj]> sms,
               <[imp := candidate]> extra)
       | None => Ok (sps ++ [None], sms, extra)
       end)
    ([], ∅, ∅) (LocalDeps (Meta_ m)).

(** [WrapProject]: the package-level variable [FallbackToDep] is read
    and written, so it is an argument and a result. *)
Definition WrapProject (E : Env) (FallbackToDep : bool)
    (p : option (dep.Project C)) : bool * outcome Project :=
  let m := manifestFromProject E p in
  let FallbackToDep :=
    if negb FallbackToDep &&
       match m with
       | None => true
       | Some m => negb (IsKdepRoot (Meta_ m)) && negb (IsKdepChild (Meta_ m))
       end
    then true else FallbackToDep in
  if FallbackToDep then
    let m := match p with
             | Some p => WrapManifest E (Some (dep.Manifest_ p))
             | None => WrapManifest E None
             end in
    (FallbackToDep, Ok (mkProject p m [] ∅))
  else
    (FallbackToDep,
     m ← deref m;
     if negb (IsKdepRoot (Meta_ m)) then Err "not a kdep root"
     else
       (* the first use of [p] below dereferences it *)
       p' ← deref p;
       '(sps, sms, extra) ← locate_all E (dep.ResolvedAbsRoot p') m;
       let b := {| Root := dep.AbsRoot p';
                   Package := dep.ImportRoot p';
                   LocalPackages := LocalDeps (Meta_ m);
                   SkipSubdirs := LocalGopaths (Meta_ m) |} in
       deps ← GetPackageDependencies E b;
       let m := mkManifest (Meta_ m) sms (Some deps) in
       Ok (mkProject p m sps extra)).

Definition MakeParams (E : Env) (FallbackToDep : bool) (p : Project)
  : outcome SolveParameters :=
  p' ← deref (Project_ p);
  if FallbackToDep then Ok (depMakeParams E p')
  else
    Ok {| RootDir := dep.AbsRoot p';
          ParamsManifest := KdepManifest (Manifest_ p);
          ParamsLock := dep.Lock_ p' |}.

(** The first loop of [ParseRootPackageTree]: entries that the
    sub-projects re-add are deleted. *)
Definition strip_entry (root : string) (gopaths : list string)
    (pkgs : gmap string PackageOrErr) (e : string * PackageOrErr)
  : gmap string PackageOrErr :=
  let '(imp, _) := e in
  foldl (λ pkgs gp,
           if HasPrefix imp (root +:+ "/" +:+ gp) then delete imp pkgs
           else pkgs)
        pkgs gopaths.

Definition strip (root : string) (gopaths : list string)
    (pkgs : gmap string PackageOrErr) : gmap string PackageOrErr :=
  range_map (strip_entry root gopaths) pkgs pkgs.

(** The second loop: every entry of every sub-project's tree is
    assigned, in [SubProjects] order. *)
Definition overlay (pkgs : gmap string PackageOrErr)
    (subs : list (option (dep.Project C)))
  : outcome (gmap string PackageOrErr) :=
  for_each
    (λ pkgs sub,
       sub ← deref sub;
       let '(t, _) := dep.ParseRootPackageTree sub in
       Ok (range_map workspace.copy_entry pkgs (Packages t)))
    pkgs subs.

Definition ParseRootPackageTree (FallbackToDep : bool) (p : Project)
  : outcome (PackageTree * option string) :=
  p' ← deref (Project_ p);
  if FallbackToDep then Ok (dep.ParseRootPackageTree p')
  else
    let '(tree, err) := dep.ParseRootPackageTree p' in
    match err with
    | Some e => Ok (tree, Some e)
    | None =>
        let pkgs :=
          strip (dep.ImportRoot p') (LocalGopaths (Meta_ (Manifest_ p)))
                (Packages tree) in
        pkgs ← overlay pkgs (SubProjects p);
        Ok (mkTree (gps.ImportRoot tree) pkgs, None)
    end.

(** The file system, as far as [dumpToFile] changes it.
    [ioutil.WriteFile] creates or truncates the file when it opens it, so
    a write that fails after that leaves the bytes written so far. *)
Abbreviation FS := (gmap string string).

Definition dumpToFile `{!SortSlice} (E : Env) (gd : godeps)
    (fname : string) (fs : FS) : FS * outcome unit :=
  let gd := mkGodeps (Comment gd) (ImportPath gd)
                     (sort_Slice less (Deps gd)) in
  match MarshalIndent E gd with
  | Err e => (fs, Err e)
  | Panic => (fs, Panic)
  | Ok js =>
      match WriteErr E fname with
      | Some (e, None) => (fs, Err e)
      | Some (e, Some n) => (<[fname := String.substring 0 n js]> fs, Err e)
      | None => (<[fname := js]> fs, Ok tt)
      end
  end.

(** The entries of one locked project, in [Packages()] order. *)
Definition project_deps (E : Env) (p : LockedProject) : list godep :=
  let '(rev, _, ver) := VersionComponentStrings (Version_ p) in
  map (λ pkg,
         let dep := mkDependency (Join (world E) [ProjectRoot p; pkg]) "" rev in
         if bool_decide (ver ≠ "")
         then mkDependency (depImportPath dep) ver (Rev dep)
         else dep)
      (Pkgs p).

Definition HackGodepsCompat `{!SortSlice} (E : Env) (FallbackToDep : bool)
    (p : Project) (s : Solution) (fs : FS) : FS * outcome unit :=
  if FallbackToDep || negb (GodepCompat (Meta_ (Manifest_ p)))
  then (fs, Ok tt)
  else
    match Project_ p with
    | None => (fs, Panic)
    | Some p' =>
        let godepsJSONPath :=
          Join (world E) [dep.AbsRoot p'; "Godeps"; "Godeps.json"] in
        let deps := foldl (λ deps lp, deps ++ project_deps E lp) [] s in
        let gd := {| Comment := "GENERATED BY DEP, DO NOT EDIT";
                     ImportPath := dep.ImportRoot p';
                     Deps := deps |} in
        dumpToFile E gd godepsJSONPath fs
    end.

End WithConstraint.
Arguments Manifest C D : clear implicits.
Arguments Project C D : clear implicits.
Arguments Env C D : clear implicits.
End kdep.


(** ** Concrete inputs *)

(** Modelled from the spec: a constraint type for concrete inputs (the
    implementations of [gps.Constraint] are not in this file): any version,
    no version, or one exact version.  [Intersect] is the most restrictive
    constraint satisfying both, the empty one when they are incompatible. *)
Inductive VConstraint :=
  | CAny
  | CNone
  | CVersion (v : string).

#[global] Instance VConstraint_Constraint : gps.Constraint VConstraint :=
  λ a b,
    match a, b with
    | CAny, c => c
    | c, CAny => c
    | CNone, _ => CNone
    | _, CNone => CNone
    | CVersion v, CVersion w => if String.eqb v w then CVersion v else CNone
    end.

(** A manifest that declares the given constraints and nothing else. *)
Definition manifest_of (cs : gps.ProjectConstraints VConstraint)
  : dep.Manifest VConstraint :=
  dep.mkManifest cs ∅ [] ∅.

(** A loaded project at [root] with the given manifest and package tree. *)
Definition project_at (root : string) (m : dep.Manifest VConstraint)
    (pkgs : gmap string gps.PackageOrErr) : dep.Project VConstraint :=
  dep.mkProject root root root m None (gps.mkTree root pkgs, None).

Definition workspace_of (root : string)
    (ps : list (dep.Project VConstraint)) : workspace.Workspace VConstraint :=
  workspace.mkWorkspace root None
    (Some (workspace.mkManifest [] (workspace.mkPrune 0 ∅)))
    (Some <$> ps).

(** Two members declare [A]: the first any version, the second [1.0.0]. *)
Definition w_any_then_exact : workspace.Workspace VConstraint :=
  workspace_of "/ws"
    [ project_at "a" (manifest_of {[ "A" := gps.mkProps "" CAny ]}) ∅;
      project_at "b" (manifest_of {[ "A" := gps.mkProps "" (CVersion "1.0.0") ]}) ∅ ].

(** Two members declare incompatible exact versions of [A]. *)
Definition w_conflict : workspace.Workspace VConstraint :=
  workspace_of "/ws"
    [ project_at "a" (manifest_of {[ "A" := gps.mkProps "" (CVersion "1.0.0") ]}) ∅;
      project_at "b" (manifest_of {[ "A" := gps.mkProps "" (CVersion "2.0.0") ]}) ∅ ].

(** ** Laws of the result monad *)

Lemma bind_Ok {A B} (a : A) (k : A → outcome B) : (Ok a ≫= k) = k a.
Proof. reflexivity. Qed.

Lemma bind_Err {A B} (e : string) (k : A → outcome B) : (Err e ≫= k) = Err e.
Proof. reflexivity. Qed.

Lemma bind_Panic {A B} (k : A → outcome B) : (Panic ≫= k) = Panic.
Proof. reflexivity. Qed.

Lemma for_each_cons {S A} (body : S → A → outcome S) s x xs :
  for_each body s (x :: xs) = (body s x ≫= λ s', for_each body s' xs).
Proof. reflexivity. Qed.

(** ** Loops over maps *)

Section Loops.
Context {C : Type} `{!gps.Constraint C}.

(** One step of the aggregation loop adds the entry unless its root is
    already there. *)
Lemma merge_entry_union (cs : gps.ProjectConstraints C) root props :
  workspace.merge_entry cs (root, props) = cs ∪ {[ root := props ]}.
Proof.
  unfold workspace.merge_entry.
  destruct (cs !! root) as [p|] eqn:Hroot.
  - apply map_eq; intros k. rewrite lookup_union.
    destruct (decide (root = k)) as [->|Hne].
    + rewrite Hroot, lookup_singleton_eq. done.
    + rewrite lookup_singleton_ne by done. by destruct (cs !! k).
  - rewrite insert_union_singleton_l.
    apply map_union_comm, map_disjoint_singleton_l. done.
Qed.

(** Whatever the order in which the entries of [extra] are visited, the
    inner loop yields the left-biased union. *)
Lemma foldl_merge_entry (l : list (string * gps.ProjectProperties C)) cs :
  foldl workspace.merge_entry cs l = cs ∪ list_to_map l.
Proof.
  revert cs; induction l as [|[root props] l IH]; intros cs; cbn [foldl].
  - simpl. by rewrite (right_id_L ∅ (∪)).
  - rewrite IH, merge_entry_union, <- (assoc_L (∪)).
    by rewrite <- insert_union_singleton_l.
Qed.

Lemma range_map_merge_entry (cs extra : gps.ProjectConstraints C) :
  range_map workspace.merge_entry cs extra = cs ∪ extra.
Proof.
  unfold range_map. by rewrite foldl_merge_entry, list_to_map_to_list.
Qed.

Lemma range_map_merge_entry_any_order
    (cs extra : gps.ProjectConstraints C) l :
  l ≡ₚ map_to_list extra →
  foldl workspace.merge_entry cs l = range_map workspace.merge_entry cs extra.
Proof.
  intros Hl. rewrite range_map_merge_entry, foldl_merge_entry.
  f_equal. apply map_to_list_inj. rewrite map_to_list_to_map.
  - done.
  - rewrite Hl. apply NoDup_fst_map_to_list.
Qed.

End Loops.

(** ** Aggregation of constraints across the workspace *)

Section Aggregation.
Context {C : Type} `{!gps.Constraint C}.
Implicit Types (ps : list (dep.Project C)) (cs : gps.ProjectConstraints C).

(** The constraint of [root] in the first manifest that declares it. *)
Fixpoint first_declared (get : dep.Manifest C → gps.ProjectConstraints C)
    (root : string) ps : option (gps.ProjectProperties C) :=
  match ps with
  | [] => None
  | p :: ps' =>
      match get (dep.Manifest_ p) !! root with
      | Some props => Some props
      | None => first_declared get root ps'
      end
  end.

Lemma aggregate_from get cs ps :
  for_each
    (λ constraints p,
       p ← deref p;
       Ok (range_map workspace.merge_entry constraints (get (dep.Manifest_ p))))
    cs (Some <$> ps)
  = Ok (foldl (λ acc p, acc ∪ get (dep.Manifest_ p)) cs ps).
Proof.
  revert cs; induction ps as [|p ps IH]; intros cs; [done|].
  cbn [fmap list_fmap for_each foldl].
  unfold mbind at 1, outcome_bind, obind. simpl.
  rewrite range_map_merge_entry. apply IH.
Qed.

(** On a workspace whose members all loaded, aggregation never fails. *)
Lemma aggregate_loaded get (w : workspace.Workspace C) ps :
  workspace.Projects w = Some <$> ps →
  workspace.aggregate get w
  = Ok (foldl (λ acc p, acc ∪ get (dep.Manifest_ p)) ∅ ps).
Proof. intros Hw. unfold workspace.aggregate. rewrite Hw. apply aggregate_from. Qed.

Lemma lookup_foldl_union get cs ps root :
  foldl (λ acc p, acc ∪ get (dep.Manifest_ p)) cs ps !! root
  = match cs !! root with
    | Some props => Some props
    | None => first_declared get root ps
    end.
Proof.
  revert cs; induction ps as [|p ps IH]; intros cs; simpl.
  - by destruct (cs !! root).
  - rewrite IH, lookup_union.
    destruct (cs !! root), (get (dep.Manifest_ p) !! root); done.
Qed.

(** The aggregated table holds, for every root, the constraint of the first
    manifest that declares it. *)
Lemma aggregate_first_declared get (w : workspace.Workspace C) ps t root :
  workspace.Projects w = Some <$> ps →
  workspace.aggregate get w = Ok t →
  t !! root = first_declared get root ps.
Proof.
  intros Hw Ht. rewrite (aggregate_loaded get w ps Hw) in Ht.
  injection Ht as <-. by rewrite lookup_foldl_union, lookup_empty.
Qed.

(** A nil member makes aggregation panic. *)
Lemma aggregate_nil_member get (w : workspace.Workspace C) ps rest :
  workspace.Projects w = (Some <$> ps) ++ None :: rest →
  workspace.aggregate get w = Panic.
Proof.
  intros Hw. unfold workspace.aggregate. rewrite Hw. clear Hw.
  generalize (∅ : gps.ProjectConstraints C).
  induction ps as [|p ps IH]; intros cs; [done|].
  cbn [fmap list_fmap app for_each].
  unfold mbind at 1, outcome_bind, obind. simpl. apply IH.
Qed.

End Aggregation.

(** C1: where two manifests declare the same root, the table of
    [Workspace.DependencyConstraints] (and of [Workspace.Overrides]) keeps
    the first declaration and not the intersection: on [w_any_then_exact]
    the entry for [A] is "any version", while intersecting the two
    declarations gives [1.0.0]. *)
Theorem aggregation_keeps_first_declaration :
  workspace.DependencyConstraints w_any_then_exact
    = Ok {[ "A" := gps.mkProps "" CAny ]}
  ∧ gps.Intersect CAny (CVersion "1.0.0") = CVersion "1.0.0"
  ∧ workspace.Overrides
      (workspace_of "/ws"
         [ project_at "a"
             (dep.mkManifest ∅ {[ "A" := gps.mkProps "" CAny ]} [] ∅) ∅;
           project_at "b"
             (dep.mkManifest ∅ {[ "A" := gps.mkProps "" (CVersion "1.0.0") ]} [] ∅) ∅ ])
    = Ok {[ "A" := gps.mkProps "" CAny ]}.
Proof. split; [|split]; reflexivity. Qed.

(** ** Reading the workspace manifest *)

(** The prune options every workspace manifest gets. *)
Definition default_prune (F : workspace.PruneFlags) : workspace.CascadingPruneOptions :=
  workspace.mkPrune
    (Z.lor (Z.lor (workspace.PruneNestedVendorDirs F) (workspace.PruneGoTestFiles F))
           (workspace.PruneUnusedPackages F))
    ∅.

(** A file system for concrete inputs: files by path, loadable projects by
    directory; paths are joined with a slash. *)
Definition world_of (files : gmap string string)
    (projs : gmap string (dep.Project VConstraint)) : World VConstraint :=
  {| Join := String.concat "/";
     Dir := λ p, p;
     Rel := λ _ target, target;
     Stat := λ p, bool_decide (is_Some (projs !! p));
     Open := λ p, match files !! p with
                  | Some c => Ok c
                  | None => Err "no such file"
                  end;
     LoadProject := λ d, match projs !! d with
                         | Some p => Ok p
                         | None => Err "no project"
                         end |}.

Definition flags0 : workspace.PruneFlags := workspace.mkPruneFlags 1 8 2.

(** A workspace directory [/ws] whose manifest lists the members [a] and
    [b]; [Unmarshal] reads the member list off the file content. *)
Definition env_of (projs : gmap string (dep.Project VConstraint))
  : workspace.Env VConstraint :=
  {| workspace.world := world_of {[ "/ws/Gows.toml" := "a b" ]} projs;
     workspace.flags := flags0;
     workspace.Unmarshal := λ buf,
       if String.eqb buf "a b"
       then Ok (workspace.mkRawManifest
                  [workspace.mkRawPackage "a" "a"; workspace.mkRawPackage "b" "b"])
       else Err "bad manifest";
     workspace.LockName := "Gopkg.lock";
     workspace.ReadLock := λ _, Err "no lock" |}.

(** C10: a manifest produced by [readManifest] or [NewManifest] carries the
    fixed prune options (nested vendor directories, Go test files and unused
    packages, with no per-project option), whatever the file contains; and
    [readManifest] produces a manifest whenever the file is read and parsed. *)
Theorem manifest_prune_options_fixed
    {C} (E : workspace.Env C) (root : string) (r : outcome string) m :
  (workspace.readManifest (workspace.flags E) (workspace.Unmarshal E) r = Ok m
   ∨ workspace.NewManifest E root = Ok (Some m)) →
  workspace.PruneOptions m = default_prune (workspace.flags E)
  ∧ ∃ buf raw, workspace.Unmarshal E buf = Ok raw
               ∧ m = workspace.fromRawManifest (workspace.flags E) raw.
Proof.
  assert (Hread : ∀ r', workspace.readManifest (workspace.flags E)
                          (workspace.Unmarshal E) r' = Ok m →
            workspace.PruneOptions m = default_prune (workspace.flags E)
            ∧ ∃ buf raw, workspace.Unmarshal E buf = Ok raw
                         ∧ m = workspace.fromRawManifest (workspace.flags E) raw).
  { intros r' Hr. unfold workspace.readManifest in Hr.
    destruct r' as [buf| |]; try discriminate.
    destruct (workspace.Unmarshal E buf) as [raw| |] eqn:Hraw; try discriminate.
    injection Hr as <-. split; [reflexivity|]. by exists buf, raw. }
  intros [Hr|Hn]; [by apply (Hread r)|].
  unfold workspace.NewManifest, ignore_err in Hn.
  destruct (workspace.readManifest _ _ _) as [m'| |] eqn:Hr; try discriminate.
  injection Hn as ->. by apply (Hread _ Hr).
Qed.

Lemma manifest_prune_options_fixed_witness :
  ∃ m, workspace.NewManifest (env_of ∅) "/ws" = Ok (Some m)
       ∧ workspace.PruneOptions m = workspace.mkPrune 11 ∅.
Proof.
  eexists. split; [reflexivity|].
  apply (manifest_prune_options_fixed (env_of ∅) "/ws" (Err "unused")).
  right. reflexivity.
Defined.

(** ** Composition of package trees *)

Section Merge.
Implicit Types (pkgs acc : gmap string gps.PackageOrErr).

(** [imp] falls under a strip prefix: [root + "/" + gp] for a local gopath. *)
Definition stripped (root : string) (gopaths : list string) (imp : string) : bool :=
  existsb (λ gp, HasPrefix imp (root +:+ "/" +:+ gp)) gopaths.

Lemma strip_entry_delete root gopaths acc imp poe :
  kdep.strip_entry root gopaths acc (imp, poe)
  = if stripped root gopaths imp then delete imp acc else acc.
Proof.
  unfold kdep.strip_entry, stripped.
  revert acc; induction gopaths as [|gp gopaths IH]; intros acc; [done|].
  cbn [foldl existsb].
  destruct (HasPrefix imp (root +:+ "/" +:+ gp)); cbn [orb].
  - rewrite IH. destruct (existsb _ gopaths); [|done].
    apply map_eq; intros k. destruct (decide (imp = k)) as [->|Hne].
    + by rewrite !lookup_delete_eq.
    + by rewrite !lookup_delete_ne.
  - apply IH.
Qed.

Lemma lookup_foldl_strip_entry root gopaths l acc k :
  foldl (kdep.strip_entry root gopaths) acc l !! k
  = if stripped root gopaths k && bool_decide (k ∈ l.*1) then None else acc !! k.
Proof.
  revert acc; induction l as [|[imp poe] l IH]; intros acc; cbn [foldl].
  - by rewrite andb_false_r.
  - rewrite IH, strip_entry_delete. cbn [fmap list_fmap fst].
    destruct (decide (k = imp)) as [->|Hne].
    + rewrite (bool_decide_true (imp ∈ imp :: l.*1)) by apply list_elem_of_here.
      destruct (stripped root gopaths imp); cbn [andb]; [|done].
      rewrite lookup_delete_eq. by destruct (bool_decide _).
    + assert (Hiff : k ∈ imp :: l.*1 ↔ k ∈ l.*1).
      { rewrite elem_of_cons. tauto. }
      rewrite (bool_decide_ext _ _ Hiff).
      destruct (stripped root gopaths imp); [|done].
      by rewrite lookup_delete_ne.
Qed.

(** The first loop deletes exactly the entries under a strip prefix. *)
Lemma lookup_strip root gopaths pkgs k :
  kdep.strip root gopaths pkgs !! k
  = if stripped root gopaths k then None else pkgs !! k.
Proof.
  unfold kdep.strip, range_map. rewrite lookup_foldl_strip_entry.
  destruct (stripped root gopaths k); cbn [andb]; [|done].
  case_bool_decide as Hk; [done|].
  destruct (pkgs !! k) as [poe|] eqn:Hpk; [|done].
  exfalso. apply Hk. apply list_elem_of_fmap. exists (k, poe).
  split; [done|]. by apply elem_of_map_to_list.
Qed.

Lemma foldl_copy_entry l acc :
  NoDup l.*1 →
  foldl workspace.copy_entry acc l = list_to_map l ∪ acc.
Proof.
  revert acc; induction l as [|[imp poe] l IH]; intros acc Hnd; cbn [foldl].
  - simpl. by rewrite (left_id_L ∅ (∪)).
  - cbn [fmap list_fmap fst] in Hnd. apply NoDup_cons in Hnd as [Hnotin Hnd].
    rewrite IH by done. unfold workspace.copy_entry. cbn [list_to_map foldr].
    apply map_eq; intros k. rewrite !lookup_union.
    destruct (decide (imp = k)) as [->|Hne].
    + rewrite !lookup_insert_eq.
      rewrite (not_elem_of_list_to_map_1 _ k Hnotin).
      by destruct (acc !! k).
    + by rewrite !lookup_insert_ne.
Qed.

(** Copying a tree into another: the copied tree wins on common keys,
    whatever the order of the copy. *)
Lemma range_map_copy_entry acc t :
  range_map workspace.copy_entry acc t = t ∪ acc.
Proof.
  unfold range_map. rewrite foldl_copy_entry by apply NoDup_fst_map_to_list.
  by rewrite list_to_map_to_list.
Qed.

Context {C : Type}.
Implicit Types (ss : list (dep.Project C)).

(** The entry of [imp] in the last tree of [ss] that has one. *)
Fixpoint last_entry (imp : string) ss : option gps.PackageOrErr :=
  match ss with
  | [] => None
  | s :: ss' =>
      match last_entry imp ss' with
      | Some poe => Some poe
      | None => gps.Packages (dep.parsed s).1 !! imp
      end
  end.

Definition overlay_all acc ss : gmap string gps.PackageOrErr :=
  foldl (λ acc s, gps.Packages (dep.parsed s).1 ∪ acc) acc ss.

Lemma lookup_overlay_all acc ss imp :
  overlay_all acc ss !! imp
  = match last_entry imp ss with
    | Some poe => Some poe
    | None => acc !! imp
    end.
Proof.
  unfold overlay_all.
  revert acc; induction ss as [|s ss IH]; intros acc; cbn [foldl last_entry].
  - done.
  - rewrite IH. destruct (last_entry imp ss); [done|].
    rewrite lookup_union.
    by destruct (gps.Packages (dep.parsed s).1 !! imp), (acc !! imp).
Qed.

Lemma overlay_loaded acc ss :
  kdep.overlay acc (Some <$> ss) = Ok (overlay_all acc ss).
Proof.
  unfold kdep.overlay, overlay_all.
  revert acc; induction ss as [|s ss IH]; intros acc; [done|].
  cbn [fmap list_fmap foldl]. rewrite for_each_cons. cbn [deref].
  rewrite bind_Ok. unfold dep.ParseRootPackageTree.
  destruct (dep.parsed s) as [t e]. rewrite bind_Ok.
  rewrite range_map_copy_entry. apply IH.
Qed.

Lemma overlay_nil_sub acc ss rest :
  kdep.overlay acc ((Some <$> ss) ++ None :: rest) = Panic.
Proof.
  unfold kdep.overlay.
  revert acc; induction ss as [|s ss IH]; intros acc; [done|].
  cbn [fmap list_fmap app]. rewrite for_each_cons. cbn [deref].
  rewrite bind_Ok. unfold dep.ParseRootPackageTree.
  destruct (dep.parsed s) as [t e]. rewrite bind_Ok. apply IH.
Qed.

End Merge.

(** *** Concrete kdep projects *)

(** The kdep manifest of a project whose kdep metadata is [meta]. *)
Definition kmanifest (meta : kdep.Meta) : kdep.Manifest VConstraint unit :=
  kdep.mkManifest meta ∅ None.

Definition plain_meta : kdep.Meta := kdep.mkMeta false false false [] [].

(** The content [MarshalIndent] gives for concrete inputs: the import path
    and then every dependency as [path@rev(comment)]. *)
Definition render (gd : kdep.godeps) : string :=
  kdep.ImportPath gd +:+ ":" +:+
  String.concat ","
    (map (λ d, kdep.depImportPath d +:+ "@" +:+ kdep.Rev d
               +:+ "(" +:+ kdep.depComment d +:+ ")")
         (kdep.Deps gd)).

(** An environment where the projects of [projs] are on disk, the kdep
    metadata of a project is looked up by import root in [metas], and no
    library call fails. *)
Definition kenv_of (projs : gmap string (dep.Project VConstraint))
    (metas : gmap string kdep.Meta) : kdep.Env VConstraint unit :=
  {| kdep.world := world_of ∅ projs;
     kdep.manifestFromProject := λ p,
       match p with
       | Some p => kmanifest <$> metas !! dep.ImportRoot p
       | None => None
       end;
     kdep.WrapManifest := λ _, kmanifest plain_meta;
     kdep.GetPackageDependencies := λ _, Ok tt;
     kdep.depMakeParams := λ p,
       kdep.mkParams (dep.AbsRoot p) (kdep.DepManifest (dep.Manifest_ p))
                     (dep.Lock_ p);
     kdep.MarshalIndent := λ gd, Ok (render gd);
     kdep.WriteErr := λ _, None |}.

(** A kdep root at [/r] with local gopath [gp]. *)
Definition p_root (pkgs : gmap string gps.PackageOrErr) : dep.Project VConstraint :=
  dep.mkProject "/r" "/r" "root" (manifest_of ∅) None (gps.mkTree "root" pkgs, None).

Definition root_meta (deps : list string) : kdep.Meta :=
  kdep.mkMeta true false true deps ["gp"].

(** A project that has nothing to do with kdep. *)
Definition p_plain : dep.Project VConstraint :=
  dep.mkProject "/q" "/q" "plain" (manifest_of ∅) None (gps.mkTree "plain" ∅, None).

(** Two local dependencies whose trees share the import path [x/y]. *)
Definition sub_x : dep.Project VConstraint :=
  dep.mkProject "/r/gp/src/x" "/r/gp/src/x" "x" (manifest_of ∅) None
    (gps.mkTree "x" {[ "x" := gps.P []; "x/y" := gps.P ["a"] ]}, None).

Definition sub_xy : dep.Project VConstraint :=
  dep.mkProject "/r/gp/src/x/y" "/r/gp/src/x/y" "x/y" (manifest_of ∅) None
    (gps.mkTree "x/y" {[ "x/y" := gps.P ["b"] ]}, None).

Definition kproject (p : dep.Project VConstraint) (meta : kdep.Meta)
    (subs : list (option (dep.Project VConstraint)))
  : kdep.Project VConstraint unit :=
  kdep.mkProject (Some p) (kmanifest meta) subs ∅.

Section KdepTree.
Context {C D : Type}.
Implicit Types (kp : kdep.Project C D) (base s : dep.Project C)
  (ss : list (dep.Project C)).

(** In kdep mode the tree is the base tree stripped and then overlaid by
    the sub-projects' trees, in order. *)
Lemma ParseRootPackageTree_kdep kp base tree ss :
  kdep.Project_ kp = Some base →
  dep.parsed base = (tree, None) →
  kdep.SubProjects kp = Some <$> ss →
  kdep.ParseRootPackageTree false kp
  = Ok (gps.mkTree (gps.ImportRoot tree)
          (overlay_all
             (kdep.strip (dep.ImportRoot base)
                (kdep.LocalGopaths (kdep.Meta_ (kdep.Manifest_ kp)))
                (gps.Packages tree))
             ss),
        None).
Proof.
  intros Hp Htree Hss. unfold kdep.ParseRootPackageTree.
  rewrite Hp. cbn [deref]. rewrite bind_Ok.
  unfold dep.ParseRootPackageTree. rewrite Htree, Hss, overlay_loaded.
  by rewrite bind_Ok.
Qed.

(** C3 (amended): the merged tree has, at every import path that some
    sub-project tree has, the entry of the last such sub-project; at any
    other path it has the base entry unless the path falls under a strip
    prefix, in which case it has none. *)
Theorem merge_strips_then_last_overlay_wins kp base tree ss :
  kdep.Project_ kp = Some base →
  dep.parsed base = (tree, None) →
  kdep.SubProjects kp = Some <$> ss →
  ∃ res,
    kdep.ParseRootPackageTree false kp = Ok (res, None)
    ∧ ∀ imp,
        gps.Packages res !! imp
        = match last_entry imp ss with
          | Some poe => Some poe
          | None =>
              if stripped (dep.ImportRoot base)
                   (kdep.LocalGopaths (kdep.Meta_ (kdep.Manifest_ kp))) imp
              then None
              else gps.Packages tree !! imp
          end.
Proof.
  intros Hp Htree Hss. eexists. split.
  - by apply ParseRootPackageTree_kdep.
  - intros imp. cbn [gps.Packages]. by rewrite lookup_overlay_all, lookup_strip.
Qed.

(** C6: merging a tree with itself as the only overlay gives the tree back,
    whatever the strip prefixes. *)
Theorem merge_with_itself_is_identity kp base s T :
  kdep.Project_ kp = Some base →
  dep.parsed base = (T, None) →
  kdep.SubProjects kp = [Some s] →
  (dep.parsed s).1 = T →
  kdep.ParseRootPackageTree false kp = Ok (T, None).
Proof.
  intros Hp Htree Hss Hs.
  rewrite (@ParseRootPackageTree_kdep kp base T [s] Hp Htree Hss).
  do 2 f_equal. destruct T as [root pkgs]. cbn [gps.ImportRoot gps.Packages].
  f_equal. apply map_eq; intros imp.
  rewrite lookup_overlay_all. cbn [last_entry]. rewrite Hs. cbn [gps.Packages].
  rewrite lookup_strip.
  destruct (pkgs !! imp) eqn:Himp; [done|]. by destruct (stripped _ _ imp).
Qed.

End KdepTree.

Lemma merge_strips_then_last_overlay_wins_witness :
  ∃ res,
    kdep.ParseRootPackageTree false
      (kproject (p_root {[ "root/gp/old" := gps.P [] ; "root/main" := gps.P ["x"] ]})
                (root_meta ["x"; "x/y"]) [Some sub_x; Some sub_xy])
    = Ok (res, None)
    ∧ gps.Packages res !! "x/y" = Some (gps.P ["b"])
    ∧ gps.Packages res !! "root/gp/old" = None
    ∧ gps.Packages res !! "root/main" = Some (gps.P ["x"]).
Proof.
  destruct (@merge_strips_then_last_overlay_wins _ _
              (kproject (p_root {[ "root/gp/old" := gps.P [] ; "root/main" := gps.P ["x"] ]})
                        (root_meta ["x"; "x/y"]) [Some sub_x; Some sub_xy])
              (p_root {[ "root/gp/old" := gps.P [] ; "root/main" := gps.P ["x"] ]})
              (gps.mkTree "root" {[ "root/gp/old" := gps.P [] ; "root/main" := gps.P ["x"] ]})
              [sub_x; sub_xy] eq_refl eq_refl eq_refl) as [res [Hres Hlook]].
  exists res. split; [exact Hres|].
  rewrite !Hlook. repeat split; vm_compute; reflexivity.
Defined.

Lemma merge_with_itself_is_identity_witness :
  kdep.ParseRootPackageTree false
    (kproject sub_x (kdep.mkMeta true false false ["x"] [""]) [Some sub_x])
  = Ok ((dep.parsed sub_x).1, None).
Proof.
  apply (@merge_with_itself_is_identity _ _
           (kproject sub_x (kdep.mkMeta true false false ["x"] [""]) [Some sub_x])
           sub_x sub_x (dep.parsed sub_x).1); reflexivity.
Defined.

(** C3 (as stated) fails where two sub-project trees share an import path:
    the entry of the earlier one is not in the merged tree. *)
Lemma merge_drops_earlier_overlay_entry :
  ∃ res,
    kdep.ParseRootPackageTree false
      (kproject (p_root ∅) (root_meta ["x"; "x/y"]) [Some sub_x; Some sub_xy])
    = Ok (res, None)
    ∧ ¬ (∀ s imp poe,
           Some s ∈ [Some sub_x; Some sub_xy] →
           gps.Packages (dep.parsed s).1 !! imp = Some poe →
           gps.Packages res !! imp = Some poe).
Proof.
  eexists. split; [reflexivity|].
  intros Hall. specialize (Hall sub_x "x/y" (gps.P ["a"])).
  assert (Hin : Some sub_x ∈ [Some sub_x; Some sub_xy]) by apply list_elem_of_here.
  specialize (Hall Hin eq_refl). vm_compute in Hall. discriminate Hall.
Qed.

(** ** Wrapping a project *)

(** C9 (fails on the code): the root lists the local dependency [x], which
    is under none of its gopaths.  [WrapProject] still returns a project,
    whose only sub-project is nil, and [ParseRootPackageTree] on that project
    dereferences it. *)
Theorem WrapProject_leaves_nil_subproject :
  ∃ res,
    kdep.WrapProject (kenv_of ∅ {[ "root" := root_meta ["x"] ]}) false
      (Some (p_root ∅))
    = (false, Ok res)
    ∧ kdep.SubProjects res = [None]
    ∧ kdep.ParseRootPackageTree false res = Panic.
Proof. eexists. repeat split. Qed.

Section Fallback.
Context {C D : Type} `{!gps.Constraint C} `{!SortSlice}.
Implicit Types (E : kdep.Env C D) (kp : kdep.Project C D).

(** Whether the kdep manifest of a project makes [WrapProject] fall back. *)
Definition not_kdep (m : option (kdep.Manifest C D)) : bool :=
  match m with
  | None => true
  | Some m =>
      negb (kdep.IsKdepRoot (kdep.Meta_ m)) && negb (kdep.IsKdepChild (kdep.Meta_ m))
  end.

(** What [WrapProject] returns when it falls back. *)
Definition fallback_project E (p : option (dep.Project C)) : kdep.Project C D :=
  kdep.mkProject p
    (kdep.WrapManifest E (dep.Manifest_ <$> p)) [] ∅.

Lemma WrapManifest_cases E (p : option (dep.Project C)) :
  match p with
  | Some p => kdep.WrapManifest E (Some (dep.Manifest_ p))
  | None => kdep.WrapManifest E None
  end = kdep.WrapManifest E (dep.Manifest_ <$> p).
Proof. by destruct p. Qed.

(** C4 (amended): the four operations depend on the package-level flag
    [FallbackToDep].  [WrapProject] leaves the flag set exactly when it was
    set or the project is not a kdep project, so it never clears it; once
    the flag is set, [WrapProject] returns the fallback project whatever the
    project's manifest says, [MakeParams] and [ParseRootPackageTree] are
    dep's own, and [HackGodepsCompat] writes nothing. *)
Theorem FallbackToDep_is_sticky E (flag : bool) (p : option (dep.Project C))
    kp (s : gps.Solution) (fs : gmap string string) :
  (kdep.WrapProject E flag p).1
    = flag || not_kdep (kdep.manifestFromProject E p)
  ∧ kdep.WrapProject E true p = (true, Ok (fallback_project E p))
  ∧ kdep.MakeParams E true kp
    = (base ← deref (kdep.Project_ kp); Ok (kdep.depMakeParams E base))
  ∧ kdep.ParseRootPackageTree true kp
    = (base ← deref (kdep.Project_ kp); Ok (dep.ParseRootPackageTree base))
  ∧ kdep.HackGodepsCompat E true kp s fs = (fs, Ok tt).
Proof.
  repeat split.
  - unfold kdep.WrapProject, not_kdep.
    destruct flag, (kdep.manifestFromProject E p) as [m|]; cbn [negb andb orb];
      try reflexivity.
    destruct (kdep.IsKdepRoot (kdep.Meta_ m)), (kdep.IsKdepChild (kdep.Meta_ m));
      reflexivity.
  - unfold kdep.WrapProject, fallback_project. cbn [negb andb].
    by rewrite WrapManifest_cases.
Qed.

End Fallback.

(** C4 (as stated) fails: wrapping a project that has nothing to do with
    kdep changes what wrapping a kdep root returns afterwards. *)
Lemma WrapProject_changes_later_calls :
  let E := kenv_of {[ "/r/gp/src/x" := sub_x ]}
                   {[ "root" := root_meta ["x"] ]} in
  let flag_after := (kdep.WrapProject E false (Some p_plain)).1 in
  flag_after = true
  ∧ (kdep.WrapProject E flag_after (Some (p_root ∅))).2
    ≠ (kdep.WrapProject E false (Some (p_root ∅))).2.
Proof.
  split; [reflexivity|].
  intros Heq.
  apply (f_equal (λ o, match o with
                       | Ok r => length (kdep.SubProjects r)
                       | _ => 0
                       end)) in Heq.
  vm_compute in Heq. discriminate Heq.
Qed.

(** ** The package tree of a workspace *)

Section WorkspaceTree.
Context {C : Type} `{!gps.Constraint C}.
Implicit Types (w : workspace.Workspace C) (ps : list (dep.Project C)).

Lemma last_entry_member imp ps poe :
  last_entry imp ps = Some poe →
  ∃ p, p ∈ ps ∧ gps.Packages (dep.parsed p).1 !! imp = Some poe.
Proof.
  induction ps as [|p ps IH]; cbn [last_entry]; [done|].
  destruct (last_entry imp ps) as [poe'|].
  - intros [= ->]. destruct (IH eq_refl) as (q & Hq & Hlook).
    exists q. split; [by apply list_elem_of_further|done].
  - intros Hp. exists p. split; [apply list_elem_of_here|done].
Qed.

(** The workspace tree is the members' trees copied in order into an empty
    tree rooted at the workspace directory; it is returned without error. *)
Lemma workspace_tree_loaded w ps :
  workspace.Projects w = Some <$> ps →
  workspace.ParseRootPackageTree w
  = Ok (gps.mkTree (workspace.AbsRoot w) (overlay_all ∅ ps)).
Proof.
  intros Hw. unfold workspace.ParseRootPackageTree. rewrite Hw.
  change (for_each _ ∅ (Some <$> ps)) with (kdep.overlay ∅ (Some <$> ps)).
  by rewrite overlay_loaded, bind_Ok.
Qed.

(** C7 (amended): the workspace tree is rooted at the workspace directory,
    and each of its keys is a key of some member's tree; where the member
    trees keep their keys under their own import roots, each key of the
    workspace tree is under the import root of a member tree. *)
Theorem workspace_tree_keys_come_from_members w ps tree :
  workspace.Projects w = Some <$> ps →
  workspace.ParseRootPackageTree w = Ok tree →
  gps.ImportRoot tree = workspace.AbsRoot w
  ∧ (∀ imp poe,
       gps.Packages tree !! imp = Some poe →
       ∃ p, p ∈ ps ∧ gps.Packages (dep.parsed p).1 !! imp = Some poe)
  ∧ ((∀ p imp, p ∈ ps →
        is_Some (gps.Packages (dep.parsed p).1 !! imp) →
        HasPrefix imp (gps.ImportRoot (dep.parsed p).1) = true) →
     ∀ imp, is_Some (gps.Packages tree !! imp) →
       ∃ p, p ∈ ps ∧ HasPrefix imp (gps.ImportRoot (dep.parsed p).1) = true).
Proof.
  intros Hw Htree. rewrite (workspace_tree_loaded w ps Hw) in Htree.
  injection Htree as <-. cbn [gps.ImportRoot gps.Packages].
  assert (Hfrom : ∀ imp poe, overlay_all ∅ ps !! imp = Some poe →
            ∃ p, p ∈ ps ∧ gps.Packages (dep.parsed p).1 !! imp = Some poe).
  { intros imp poe. rewrite lookup_overlay_all, lookup_empty.
    destruct (last_entry imp ps) as [poe'|] eqn:Hlast; [|done].
    intros [= ->]. by apply last_entry_member. }
  split; [done|]. split; [exact Hfrom|].
  intros Hinv imp [poe Himp]. destruct (Hfrom imp poe Himp) as (p & Hp & Hlook).
  exists p. split; [done|]. apply Hinv; [done|]. by exists poe.
Qed.

End WorkspaceTree.

(** One member whose package [a/pkg] lies under its import root [a]. *)
Definition w_one_member : workspace.Workspace VConstraint :=
  workspace_of "/ws" [ project_at "a" (manifest_of ∅) {[ "a/pkg" := gps.P [] ]} ].

Lemma workspace_tree_keys_come_from_members_witness :
  ∃ tree,
    workspace.ParseRootPackageTree w_one_member = Ok tree
    ∧ gps.ImportRoot tree = "/ws"
    ∧ ∃ p, p ∈ [project_at "a" (manifest_of ∅) {[ "a/pkg" := gps.P [] ]}]
           ∧ HasPrefix "a/pkg" (gps.ImportRoot (dep.parsed p).1) = true.
Proof.
  eexists. split; [reflexivity|].
  destruct (workspace_tree_keys_come_from_members w_one_member
              [project_at "a" (manifest_of ∅) {[ "a/pkg" := gps.P [] ]}]
              eq_refl eq_refl) as (Hroot & _ & Hkeys).
  split; [exact Hroot|].
  apply Hkeys.
  - intros p imp Hp [poe Hlook].
    apply list_elem_of_singleton in Hp as ->.
    cbn in Hlook. apply lookup_singleton_Some in Hlook as [<- _]. reflexivity.
  - exists (gps.P []). reflexivity.
Defined.

(** C7 (as stated) fails: the key [a/pkg] of the workspace tree is not
    under the tree's import root [/ws]. *)
Lemma workspace_tree_key_outside_ImportRoot :
  ∃ tree,
    workspace.ParseRootPackageTree w_one_member = Ok tree
    ∧ ¬ (∀ imp, is_Some (gps.Packages tree !! imp) →
                HasPrefix imp (gps.ImportRoot tree) = true).
Proof.
  eexists. split; [reflexivity|].
  intros Hall. specialize (Hall "a/pkg").
  assert (Hsome : is_Some
            (gps.Packages (gps.mkTree "/ws"
               (overlay_all ∅ [project_at "a" (manifest_of ∅)
                                 {[ "a/pkg" := gps.P [] ]}])) !! "a/pkg"))
    by (exists (gps.P []); reflexivity).
  specialize (Hall Hsome). vm_compute in Hall. discriminate Hall.
Qed.

(** ** The Godeps export *)

(** *** The order of import paths *)

Lemma ascii_compare_refl a : Ascii.compare a a = Eq.
Proof. apply N.compare_refl. Qed.

Lemma ascii_compare_lt_trans a b c :
  Ascii.compare a b = Lt → Ascii.compare b c = Lt → Ascii.compare a c = Lt.
Proof.
  unfold Ascii.compare. rewrite !N.compare_lt_iff. apply N.lt_trans.
Qed.

Lemma string_compare_refl s : String.compare s s = Eq.
Proof. induction s as [|a s IH]; simpl; [done|]. by rewrite ascii_compare_refl. Qed.

Lemma string_compare_lt_trans s t u :
  String.compare s t = Lt → String.compare t u = Lt → String.compare s u = Lt.
Proof.
  revert t u; induction s as [|a s IH]; intros [|b t] [|c u]; simpl;
    try done.
  destruct (Ascii.compare a b) eqn:Hab, (Ascii.compare b c) eqn:Hbc;
    try done; intros Hst Htu.
  - apply Ascii.compare_eq_iff in Hab as ->.
    apply Ascii.compare_eq_iff in Hbc as ->.
    rewrite ascii_compare_refl. by apply (IH t u).
  - apply Ascii.compare_eq_iff in Hab as ->. by rewrite Hbc.
  - apply Ascii.compare_eq_iff in Hbc as <-. by rewrite Hab.
  - by rewrite (ascii_compare_lt_trans a b c Hab Hbc).
Qed.

Lemma string_ltb_irrefl s : String.ltb s s = false.
Proof. unfold String.ltb. by rewrite string_compare_refl. Qed.

Lemma string_ltb_trans s t u :
  String.ltb s t = true → String.ltb t u = true → String.ltb s u = true.
Proof.
  unfold String.ltb. intros Hst Htu.
  destruct (String.compare s t) eqn:Hs; try done.
  destruct (String.compare t u) eqn:Ht; try done.
  by rewrite (string_compare_lt_trans s t u Hs Ht).
Qed.

(** [s] is not before [t] exactly when [t] is before or equal to [s]. *)
Lemma string_ltb_false s t : String.ltb s t = false ↔ String.leb t s = true.
Proof.
  unfold String.ltb, String.leb. rewrite (String.compare_antisym t s).
  destruct (String.compare s t); simpl; split; done.
Qed.

Lemma string_leb_trans s t u :
  String.leb s t = true → String.leb t u = true → String.leb s u = true.
Proof.
  unfold String.leb. intros Hst Htu.
  destruct (String.compare s t) eqn:Hs; try done.
  - apply String.compare_eq_iff in Hs as ->. done.
  - destruct (String.compare t u) eqn:Ht; try done.
    + apply String.compare_eq_iff in Ht as <-. by rewrite Hs.
    + by rewrite (string_compare_lt_trans s t u Hs Ht).
Qed.

(** The comparison of [dumpToFile] is a strict weak order. *)
Lemma less_StrictWeakOrder : StrictWeakOrder kdep.less.
Proof.
  split; unfold kdep.less.
  - intros a. apply string_ltb_irrefl.
  - intros a b c. apply string_ltb_trans.
  - intros a b c. rewrite !string_ltb_false. intros Hba Hcb.
    by apply (string_leb_trans _ _ _ Hcb Hba).
Qed.

(** *** A sort that meets the contract of [sort.Slice] *)

Section InsertionSort.
Context {A : Type} (lt : A → A → bool).

Fixpoint insert_sorted (x : A) (l : list A) : list A :=
  match l with
  | [] => [x]
  | y :: l' => if lt x y then x :: y :: l' else y :: insert_sorted x l'
  end.

Fixpoint insertion_sort (l : list A) : list A :=
  match l with
  | [] => []
  | x :: l' => insert_sorted x (insertion_sort l')
  end.

Lemma insert_sorted_perm x l : Permutation (x :: l) (insert_sorted x l).
Proof.
  induction l as [|y l IH]; simpl; [done|].
  destruct (lt x y); [done|].
  rewrite perm_swap. by apply perm_skip.
Qed.

Lemma insertion_sort_perm l : Permutation l (insertion_sort l).
Proof.
  induction l as [|x l IH]; simpl; [done|].
  rewrite <- insert_sorted_perm. by apply perm_skip.
Qed.

Lemma insert_sorted_sorted x l :
  StrictWeakOrder lt →
  StronglySorted (λ a b, lt b a = false) l →
  StronglySorted (λ a b, lt b a = false) (insert_sorted x l).
Proof.
  intros Hswo Hl. induction Hl as [|y l Hl IH Hy]; simpl.
  - repeat constructor.
  - destruct (lt x y) eqn:Hxy.
    + constructor; [by constructor|]. constructor.
      * destruct (lt y x) eqn:Hyx; [|done].
        by rewrite <- (swo_irrefl Hswo x), <- (swo_trans Hswo x y x Hxy Hyx).
      * eapply Forall_impl; [exact Hy|]. intros z Hzy. simpl in Hzy.
        destruct (lt z x) eqn:Hzx; [|done].
        by rewrite <- Hzy, (swo_trans Hswo z x y Hzx Hxy).
    + constructor; [exact IH|].
      rewrite <- (insert_sorted_perm x l). by constructor.
Qed.

Lemma insertion_sort_sorted l :
  StrictWeakOrder lt →
  StronglySorted (λ a b, lt b a = false) (insertion_sort l).
Proof.
  intros Hswo. induction l as [|x l IH]; simpl; [constructor|].
  by apply insert_sorted_sorted.
Qed.

End InsertionSort.

#[global] Instance insertion_SortSlice : SortSlice :=
  {| sort_Slice := @insertion_sort;
     sort_Slice_perm := @insertion_sort_perm;
     sort_Slice_sorted := @insertion_sort_sorted |}.

Lemma StronglySorted_weaken {A} (R S : A → A → Prop) l :
  (∀ a b, R a b → S a b) → StronglySorted R l → StronglySorted S l.
Proof.
  intros HRS Hl. induction Hl as [|x l Hl IH Hx]; constructor; [done|].
  eapply Forall_impl; [exact Hx|]. intros y. apply HRS.
Qed.

Section GodepsExport.
Context {C D : Type} `{!gps.Constraint C} `{!SortSlice}.
Implicit Types (E : kdep.Env C D) (kp : kdep.Project C D) (s : gps.Solution)
  (fs : gmap string string).

(** The loop of [HackGodepsCompat] lists the entries of the locked projects
    in [Projects()] order. *)
Lemma foldl_project_deps E s acc :
  foldl (λ deps lp, deps ++ kdep.project_deps E lp) acc s
  = acc ++ flat_map (kdep.project_deps E) s.
Proof.
  revert acc; induction s as [|lp s IH]; intros acc; simpl.
  - by rewrite app_nil_r.
  - by rewrite IH, app_assoc.
Qed.

(** C5: when the export is on, the file handed to [ioutil.WriteFile] is the
    marshalling of one [godeps] value that depends on the project and the
    solution only: its entries are those of the solution, sorted by import
    path.  So two exports of the same solution that both succeed leave the
    same content at [Godeps/Godeps.json], whatever the file system held
    before. *)
Theorem godeps_export_sorted_and_reproducible E kp base s :
  kdep.Project_ kp = Some base →
  kdep.GodepCompat (kdep.Meta_ (kdep.Manifest_ kp)) = true →
  let path := Join (kdep.world E) [dep.AbsRoot base; "Godeps"; "Godeps.json"] in
  ∃ gd,
    kdep.ImportPath gd = dep.ImportRoot base
    ∧ Permutation (flat_map (kdep.project_deps E) s) (kdep.Deps gd)
    ∧ StronglySorted
        (λ a b, String.leb (kdep.depImportPath a) (kdep.depImportPath b) = true)
        (kdep.Deps gd)
    ∧ (∀ fs js,
         kdep.MarshalIndent E gd = Ok js → kdep.WriteErr E path = None →
         kdep.HackGodepsCompat E false kp s fs = (<[path := js]> fs, Ok tt))
    ∧ (∀ fs1 fs2 fs1' fs2',
         kdep.HackGodepsCompat E false kp s fs1 = (fs1', Ok tt) →
         kdep.HackGodepsCompat E false kp s fs2 = (fs2', Ok tt) →
         ∃ js, kdep.MarshalIndent E gd = Ok js
               ∧ fs1' !! path = Some js ∧ fs2' !! path = Some js).
Proof.
  intros Hbase Hcompat path.
  set (deps := sort_Slice kdep.less (flat_map (kdep.project_deps E) s)).
  exists (kdep.mkGodeps "GENERATED BY DEP, DO NOT EDIT" (dep.ImportRoot base) deps).
  assert (Hrun : ∀ fs,
    kdep.HackGodepsCompat E false kp s fs
    = match kdep.MarshalIndent E
              (kdep.mkGodeps "GENERATED BY DEP, DO NOT EDIT" (dep.ImportRoot base) deps) with
      | Ok js => match kdep.WriteErr E path with
                 | Some (e, None) => (fs, Err e)
                 | Some (e, Some n) =>
                     (<[path := String.substring 0 n js]> fs, Err e)
                 | None => (<[path := js]> fs, Ok tt)
                 end
      | Err e => (fs, Err e)
      | Panic => (fs, Panic)
      end).
  { intros fs. unfold kdep.HackGodepsCompat, kdep.dumpToFile.
    rewrite Hcompat, Hbase. cbn [negb orb kdep.Comment kdep.ImportPath kdep.Deps].
    by rewrite foldl_project_deps. }
  split; [done|]. split; [apply sort_Slice_perm|]. split.
  - cbn [kdep.Deps]. unfold deps.
    eapply StronglySorted_weaken;
      [|exact (sort_Slice_sorted _ less_StrictWeakOrder)].
    intros a b Hba. by apply string_ltb_false.
  - split.
    + intros fs js Hjs Hw. by rewrite Hrun, Hjs, Hw.
    + intros fs1 fs2 fs1' fs2'. rewrite !Hrun.
      destruct (kdep.MarshalIndent E _) as [js| |]; [|done..].
      destruct (kdep.WriteErr E path) as [[e [n|]]|]; [done..|].
      intros [= <-] [= <-]. exists js. by rewrite !lookup_insert_eq.
Qed.

End GodepsExport.

(** A solution with two projects, given out of import-path order. *)
Definition solution0 : gps.Solution :=
  [ gps.mkLP "z" (gps.mkVersion "r2" "" "v2.0.0") ["b"; "a"];
    gps.mkLP "y" (gps.mkVersion "r1" "master" "") ["c"] ].

Lemma godeps_export_sorted_and_reproducible_witness :
  (kdep.HackGodepsCompat (kenv_of ∅ ∅) false
     (kproject (p_root ∅) (root_meta []) []) solution0
     {[ "/r/Godeps/Godeps.json" := "stale" ]}).1
    !! "/r/Godeps/Godeps.json"
  = Some "root:y/c@r1(),z/a@r2(v2.0.0),z/b@r2(v2.0.0)".
Proof.
  destruct (godeps_export_sorted_and_reproducible (kenv_of ∅ ∅)
              (kproject (p_root ∅) (root_meta []) []) solution0
              eq_refl eq_refl) as (gd & _ & _ & _ & _ & Hsame).
  destruct (Hsame {[ "/r/Godeps/Godeps.json" := "stale" ]} ∅ _ _
              eq_refl eq_refl) as (js & _ & Hfs1 & _).
  vm_compute. reflexivity.
Defined.

(** ** The workspace command *)

(** Modelled from the spec: [checkErrors] is declared outside this file.
    A package that failed to parse is reported, and it is fatal only if it
    is required.  [required] says which import paths the solution needs;
    [IsIgnored] is the ignored-ruleset test. *)
Definition checkErrors_spec (required : string → bool)
    (IsIgnored : list string → string → bool)
    (m : gmap string gps.PackageOrErr) (ignore : list string)
  : bool * option string :=
  let errs :=
    omap (λ '(imp, poe),
            match poe with
            | gps.PErr e => if IsIgnored ignore imp then None else Some (imp, e)
            | gps.P _ => None
            end)
         (map_to_list m) in
  match errs with
  | [] => (false, None)
  | (_, e) :: _ => (existsb (λ '(imp, _), required imp) errs, Some e)
  end.

(** Collaborators that accept everything and solve to the empty solution,
    with [checkErrors] as above. *)
Definition K_accept (required : string → bool) : workspace.Collab VConstraint :=
  {| workspace.SourceManager := None;
     workspace.ValidateProjectRoots := λ _, None;
     workspace.checkErrors := checkErrors_spec required (λ _ _, false);
     workspace.ValidateParams := λ _, None;
     workspace.gpsPrepare := λ _, None;
     workspace.solverSolve := λ _, Ok [];
     workspace.handleAllTheFailuresOfTheWorld := λ e, Some e;
     workspace.NewSafeWriter := λ _ _ _, None;
     workspace.swPrintPreparedActions := None;
     workspace.swWrite := λ _, None |}.

(** The parameters [Run] hands to the solver for workspace [w]. *)
Definition run_params {C} (ctx : workspace.Ctx) (w : workspace.Workspace C)
    (tree : gps.PackageTree) : workspace.SolveParameters C :=
  workspace.mkParams (workspace.AbsRoot w) w
    (match workspace.Lock w with Some l => Some l | None => None end)
    tree
    (if workspace.Verbose ctx then true else false).

Section RunLog.
Context {C : Type} `{!gps.Constraint C}.
#[local] Existing Instances workspace.prog_bind workspace.prog_ret.
Implicit Types (log : list (workspace.event (C:=C))).

Lemma prog_bind_eq {A B} (m : workspace.prog A) (k : A → workspace.prog B) log :
  (m ≫= k) log
  = match m log with
    | (log', Ok a) => k a log'
    | (log', Err e) => (log', Err e)
    | (log', Panic) => (log', Panic)
    end.
Proof. reflexivity. Qed.

Lemma prog_ret_eq {A} (a : A) log :
  (mret a : workspace.prog A) log = (log, Ok a).
Proof. reflexivity. Qed.

(** A computation only appends to the log. *)
Definition appends {A} (m : workspace.prog (C:=C) A) : Prop :=
  ∀ log, ∃ more, (m log).1 = log ++ more.

Lemma appends_ret {A} (a : A) : appends (mret a).
Proof. intros log. exists []. by rewrite app_nil_r. Qed.

Lemma appends_lift {A} (o : outcome A) : appends (workspace.lift o).
Proof. intros log. exists []. by rewrite app_nil_r. Qed.

Lemma appends_emit ev : appends (workspace.emit ev).
Proof. intros log. by exists [ev]. Qed.

Lemma appends_check err : appends (workspace.check err).
Proof. destruct err; [apply appends_lift|apply appends_ret]. Qed.

Lemma appends_bind {A B} (m : workspace.prog A) (k : A → workspace.prog B) :
  appends m → (∀ a, appends (k a)) → appends (m ≫= k).
Proof.
  intros Hm Hk log. rewrite prog_bind_eq.
  destruct (Hm log) as [more Hmore].
  destruct (m log) as [log' [a|e|]]; cbn [fst] in *; subst log'.
  - destruct (Hk a (log ++ more)) as [more' Hmore'].
    exists (more ++ more'). by rewrite Hmore', app_assoc.
  - by exists more.
  - by exists more.
Qed.

Lemma appends_for_each {S A} (body : S → A → workspace.prog S) s xs :
  (∀ s x, appends (body s x)) → appends (for_each body s xs).
Proof.
  intros Hbody. revert s; induction xs as [|x xs IH]; intros s.
  - apply appends_ret.
  - cbn [for_each]. apply appends_bind; [apply Hbody|apply IH].
Qed.

Lemma appends_link_vendor E w m : appends (workspace.link_vendor E w m).
Proof.
  apply appends_for_each. intros [] p.
  repeat (apply appends_bind; [apply appends_emit|intros _]).
  apply appends_emit.
Qed.

End RunLog.

Section RunSolver.
Context {C : Type} `{!gps.Constraint C}.
#[local] Existing Instances workspace.prog_bind workspace.prog_ret.
Implicit Types (E : workspace.Env C) (K : workspace.Collab C)
  (w : workspace.Workspace C) (ps : list (dep.Project C))
  (log : list (workspace.event (C:=C))).

Definition is_Println (ev : workspace.event (C:=C)) : Prop :=
  ∃ msg, ev = workspace.Println msg.

Lemma validate_roots_ok K w ps log :
  workspace.Projects w = Some <$> ps →
  (∀ p, p ∈ ps → workspace.ValidateProjectRoots K (dep.Manifest_ p) = None) →
  workspace.validate_roots K w log = (log, Ok tt).
Proof.
  intros Hw Hok. unfold workspace.validate_roots. rewrite Hw. clear Hw.
  induction ps as [|p ps IH]; [done|].
  cbn [fmap list_fmap for_each]. rewrite prog_bind_eq.
  rewrite prog_bind_eq. cbn [deref workspace.lift].
  rewrite (Hok p) by apply list_elem_of_here. cbn [workspace.check].
  apply IH. intros q Hq. apply Hok. by apply list_elem_of_further.
Qed.

(** Where no check is fatal, the loop over the members at most prints. *)
Lemma check_packages_nonfatal K ctx params w ps log :
  workspace.Projects w = Some <$> ps →
  (∀ p, p ∈ ps →
     (workspace.checkErrors K (gps.Packages (workspace.RootPackageTree params))
        (dep.IgnoredPackages (dep.Manifest_ p))).1 = false) →
  ∃ prints,
    workspace.check_packages K ctx params w log = (log ++ prints, Ok tt)
    ∧ Forall is_Println prints.
Proof.
  intros Hw Hok. unfold workspace.check_packages. rewrite Hw. clear Hw.
  revert log; induction ps as [|p ps IH]; intros log.
  { exists []. by rewrite app_nil_r. }
  cbn [fmap list_fmap for_each]. rewrite prog_bind_eq.
  rewrite prog_bind_eq. cbn [deref workspace.lift].
  pose proof (Hok p (list_elem_of_here _ _)) as Hp.
  destruct (workspace.checkErrors K _ _) as [fatal err]. cbn [fst] in Hp. subst fatal.
  assert (Hok' : ∀ q, q ∈ ps →
            (workspace.checkErrors K (gps.Packages (workspace.RootPackageTree params))
               (dep.IgnoredPackages (dep.Manifest_ q))).1 = false).
  { intros q Hq. apply Hok. by apply list_elem_of_further. }
  specialize (IH Hok').
  destruct err as [e|]; [destruct (workspace.Verbose ctx)|].
  - cbn [workspace.emit]. destruct (IH (log ++ [workspace.Println e]))
      as (prints & Hrun & Hprints).
    exists (workspace.Println e :: prints). split.
    + rewrite Hrun. by rewrite <- app_assoc.
    + constructor; [by exists e|done].
  - apply IH.
  - apply IH.
Qed.

(** A fatal check on the first member stops the loop with its error. *)
Lemma check_packages_fatal K ctx params w p ps e log :
  workspace.Projects w = Some <$> (p :: ps) →
  workspace.checkErrors K (gps.Packages (workspace.RootPackageTree params))
    (dep.IgnoredPackages (dep.Manifest_ p)) = (true, Some e) →
  workspace.check_packages K ctx params w log = (log, Err e).
Proof.
  intros Hw Hfatal. unfold workspace.check_packages. rewrite Hw.
  cbn [fmap list_fmap for_each]. rewrite prog_bind_eq.
  rewrite prog_bind_eq. cbn [deref workspace.lift]. by rewrite Hfatal.
Qed.

(** What [Run] does once the solver is prepared. *)
Definition after_prepare E K (dryRun : bool) w
    (params : workspace.SolveParameters C) : workspace.prog unit :=
  _ ← workspace.check ((λ e, Wrap e "prepare solver") <$> workspace.gpsPrepare K params);
  _ ← workspace.emit (workspace.Solve params);
  match workspace.solverSolve K params with
  | Panic => workspace.lift Panic
  | Err e => workspace.check (workspace.handleAllTheFailuresOfTheWorld K e)
  | Ok solution =>
      m ← workspace.lift (deref (workspace.Manifest_ w));
      _ ← workspace.check
            (workspace.NewSafeWriter K (workspace.Lock w) solution
               (workspace.PruneOptions m));
      if dryRun then
        _ ← workspace.emit workspace.PrintPreparedActions;
        workspace.check (workspace.swPrintPreparedActions K)
      else
        _ ← workspace.emit (workspace.SafeWrite (workspace.AbsRoot w));
        _ ← workspace.check
              ((λ e, Wrap e "grouped write of manifest, lock and vendor")
                 <$> workspace.swWrite K (workspace.AbsRoot w));
        workspace.link_vendor E w m
  end.

(** What [Run] does after the parameters passed validation. *)
Definition solve_and_write E K (dryRun : bool) w
    (params : workspace.SolveParameters C) : workspace.prog unit :=
  _ ← workspace.emit (workspace.Prepare params);
  after_prepare E K dryRun w params.

Lemma appends_after_prepare E K dryRun w params :
  appends (after_prepare E K dryRun w params).
Proof.
  unfold after_prepare.
  apply appends_bind; [apply appends_check|intros _].
  apply appends_bind; [apply appends_emit|intros _].
  destruct (workspace.solverSolve K params) as [solution|e|];
    [|apply appends_check|apply appends_lift].
  apply appends_bind; [apply appends_lift|intros m].
  apply appends_bind; [apply appends_check|intros _].
  destruct dryRun.
  - apply appends_bind; [apply appends_emit|intros _]. apply appends_check.
  - apply appends_bind; [apply appends_emit|intros _].
    apply appends_bind; [apply appends_check|intros _].
    apply appends_link_vendor.
Qed.

Lemma solve_and_write_prepares E K dryRun w params log :
  ∃ more,
    (solve_and_write E K dryRun w params log).1
    = log ++ workspace.Prepare params :: more.
Proof.
  unfold solve_and_write. rewrite prog_bind_eq. cbn [workspace.emit].
  cbv iota beta.
  destruct (appends_after_prepare E K dryRun w params
              (log ++ [workspace.Prepare params])) as [more Hmore].
  exists more. rewrite Hmore. by rewrite <- app_assoc.
Qed.

(** [Run] from the package check on, for a workspace already built. *)
Lemma Run_unfold E K dryRun ctx args w tree :
  workspace.NewWorkspace E (workspace.WorkingDir ctx) = Ok w →
  workspace.SourceManager K = None →
  workspace.validate_roots K w [] = ([], Ok tt) →
  workspace.ParseRootPackageTree w = Ok tree →
  workspace.Run E K dryRun ctx args []
  = (_ ← workspace.check_packages K ctx (run_params ctx w tree) w;
     _ ← (if bool_decide (length args ≠ 0)
          then workspace.lift
                 (Err "dep workspace only takes spec arguments with -add or -update")
          else mret tt);
     _ ← workspace.check (workspace.ValidateParams K (run_params ctx w tree));
     solve_and_write E K dryRun w (run_params ctx w tree)) [].
Proof.
  intros Hnew Hsm Hroots Htree. unfold workspace.Run.
  rewrite prog_bind_eq. unfold workspace.lift at 1. rewrite Hnew.
  rewrite prog_bind_eq. rewrite Hsm. cbn [workspace.check].
  rewrite prog_ret_eq.
  rewrite prog_bind_eq, Hroots.
  rewrite prog_bind_eq. unfold workspace.lift at 1. rewrite Htree.
  unfold run_params, workspace.MakeParams.
  destruct (workspace.Verbose ctx);
    cbn [workspace.RootDir workspace.RootManifest workspace.ParamsLock
         workspace.RootPackageTree workspace.TraceLogger]; reflexivity.
Qed.

(** With the earlier checks passed and no fatal package error, [Run] hands
    the workspace to the solver, after at most some printed warnings. *)
Lemma Run_reaches_solver E K dryRun ctx w ps tree :
  workspace.NewWorkspace E (workspace.WorkingDir ctx) = Ok w →
  workspace.Projects w = Some <$> ps →
  workspace.ParseRootPackageTree w = Ok tree →
  workspace.SourceManager K = None →
  (∀ p, p ∈ ps → workspace.ValidateProjectRoots K (dep.Manifest_ p) = None) →
  (∀ p, p ∈ ps →
     (workspace.checkErrors K (gps.Packages tree)
        (dep.IgnoredPackages (dep.Manifest_ p))).1 = false) →
  workspace.ValidateParams K (run_params ctx w tree) = None →
  ∃ prints more,
    (workspace.Run E K dryRun ctx [] []).1
    = prints ++ workspace.Prepare (run_params ctx w tree) :: more
    ∧ Forall is_Println prints.
Proof.
  intros Hnew Hw Htree Hsm Hroots Hcheck Hvalid.
  rewrite (@Run_unfold E K dryRun ctx [] w tree Hnew Hsm
             (@validate_roots_ok K w ps [] Hw Hroots) Htree).
  destruct (@check_packages_nonfatal K ctx (run_params ctx w tree) w ps [] Hw)
    as (prints & Hrun & Hprints); [exact Hcheck|].
  rewrite prog_bind_eq, Hrun. cbn [app].
  rewrite prog_bind_eq. rewrite bool_decide_false by (simpl; lia).
  rewrite prog_ret_eq.
  rewrite prog_bind_eq, Hvalid. cbn [workspace.check].
  rewrite prog_ret_eq.
  destruct (solve_and_write_prepares E K dryRun w (run_params ctx w tree) prints)
    as [more Hmore].
  by exists prints, more.
Qed.

End RunSolver.

Section Settled.
Context {C : Type} `{!gps.Constraint C}.
Implicit Types (E : workspace.Env C) (K : workspace.Collab C)
  (w : workspace.Workspace C) (ps : list (dep.Project C)).

Lemma first_declared_is_Some get root ps :
  is_Some (first_declared get root ps)
  ↔ ∃ p, p ∈ ps ∧ is_Some (get (dep.Manifest_ p) !! root).
Proof.
  induction ps as [|p ps IH]; cbn [first_declared].
  - split; [by intros [? ?]|]. intros (p & Hp & _). by apply elem_of_nil in Hp.
  - destruct (get (dep.Manifest_ p) !! root) as [props|] eqn:Hp.
    + split; [|by eexists]. intros _. exists p.
      split; [apply list_elem_of_here|]. rewrite Hp. by eexists.
    + rewrite IH. split.
      * intros (q & Hq & Hsome). exists q. split; [by apply list_elem_of_further|done].
      * intros (q & Hq & Hsome). apply elem_of_cons in Hq as [->|Hq].
        -- rewrite Hp in Hsome. by destruct Hsome.
        -- by exists q.
Qed.

(** C2 (amended): aggregation has no error result.  For a workspace whose
    members all loaded, [DependencyConstraints] and [Overrides] return
    tables with an entry exactly for the roots some member declares; and
    [Run] starts the solver on the workspace as soon as the source manager,
    the project roots, the package errors, the arguments and the parameters
    pass their checks, none of which looks at the tables. *)
Theorem Run_starts_solver_without_checking_constraints
    E K (dryRun : bool) ctx w ps tree :
  workspace.NewWorkspace E (workspace.WorkingDir ctx) = Ok w →
  workspace.Projects w = Some <$> ps →
  workspace.ParseRootPackageTree w = Ok tree →
  workspace.SourceManager K = None →
  (∀ p, p ∈ ps → workspace.ValidateProjectRoots K (dep.Manifest_ p) = None) →
  (∀ p, p ∈ ps →
     (workspace.checkErrors K (gps.Packages tree)
        (dep.IgnoredPackages (dep.Manifest_ p))).1 = false) →
  workspace.ValidateParams K (run_params ctx w tree) = None →
  (∃ t o,
     workspace.DependencyConstraints w = Ok t
     ∧ workspace.Overrides w = Ok o
     ∧ (∀ root, is_Some (t !! root)
          ↔ ∃ p, p ∈ ps ∧ is_Some (dep.DependencyConstraints (dep.Manifest_ p) !! root))
     ∧ (∀ root, is_Some (o !! root)
          ↔ ∃ p, p ∈ ps ∧ is_Some (dep.Overrides (dep.Manifest_ p) !! root)))
  ∧ ∃ prints more,
      (workspace.Run E K dryRun ctx [] []).1
      = prints ++ workspace.Prepare (run_params ctx w tree) :: more
      ∧ Forall is_Println prints
      ∧ workspace.RootManifest (run_params ctx w tree) = w.
Proof.
  intros Hnew Hw Htree Hsm Hroots Hcheck Hvalid. split.
  - eexists _, _. split; [by apply aggregate_loaded|].
    split; [by apply aggregate_loaded|]. split; intros root.
    + rewrite lookup_foldl_union, lookup_empty. apply first_declared_is_Some.
    + rewrite lookup_foldl_union, lookup_empty. apply first_declared_is_Some.
  - destruct (@Run_reaches_solver _ E K dryRun ctx w ps tree
                Hnew Hw Htree Hsm Hroots Hcheck Hvalid)
      as (prints & more & Hrun & Hprints).
    by exists prints, more.
Qed.






End Settled.

(** *** The workspace on disk for the concrete runs *)

(** The members at [/ws/a] and [/ws/b] declare incompatible versions of
    [A]; one package of [a] failed to parse. *)
Definition member_a : dep.Project VConstraint :=
  project_at "a" (manifest_of {[ "A" := gps.mkProps "" (CVersion "1.0.0") ]})
    {[ "a/ok" := gps.P ["A"]; "a/broken" := gps.PErr "syntax error" ]}.

Definition member_b : dep.Project VConstraint :=
  project_at "b" (manifest_of {[ "A" := gps.mkProps "" (CVersion "2.0.0") ]})
    {[ "b" := gps.P ["A"] ]}.

Definition disk_conflict : gmap string (dep.Project VConstraint) :=
  {[ "/ws/a" := member_a; "/ws/b" := member_b ]}.

(** The workspace that [NewWorkspace] builds from that disk. *)
Definition w_disk : workspace.Workspace VConstraint :=
  workspace.mkWorkspace "/ws" None
    (Some (workspace.fromRawManifest flags0
             (workspace.mkRawManifest
                [workspace.mkRawPackage "a" "a"; workspace.mkRawPackage "b" "b"])))
    [Some member_a; Some member_b].

Definition tree_disk : gps.PackageTree :=
  gps.mkTree "/ws"
    {[ "a/ok" := gps.P ["A"]; "a/broken" := gps.PErr "syntax error";
       "b" := gps.P ["A"] ]}.

Definition ctx_ws : workspace.Ctx := workspace.mkCtx "/ws" false.

(** C2 (as stated) fails: the two members' constraints on [A] have an
    empty intersection, yet aggregation returns a table, no error is
    reported, and [Run] prepares and runs the solver. *)
Lemma Run_starts_solver_on_conflicting_manifests :
  ∃ w params,
    workspace.NewWorkspace (env_of disk_conflict) "/ws" = Ok w
    ∧ gps.Intersect (CVersion "1.0.0") (CVersion "2.0.0") = CNone
    ∧ workspace.DependencyConstraints w
      = Ok {[ "A" := gps.mkProps "" (CVersion "1.0.0") ]}
    ∧ workspace.Run (env_of disk_conflict) (K_accept (λ _, false)) true ctx_ws [] []
      = ([workspace.Prepare params; workspace.Solve params;
          workspace.PrintPreparedActions], Ok tt)
    ∧ workspace.RootManifest params = w.
Proof. eexists _, _. repeat split; vm_compute; reflexivity. Qed.

Lemma Run_starts_solver_without_checking_constraints_witness :
  ∃ prints more,
    (workspace.Run (env_of disk_conflict) (K_accept (λ _, false)) true ctx_ws [] []).1
    = prints ++ workspace.Prepare (run_params ctx_ws w_disk tree_disk) :: more.
Proof.
  destruct (@Run_starts_solver_without_checking_constraints _ _
              (env_of disk_conflict) (K_accept (λ _, false)) true ctx_ws
              w_disk [member_a; member_b] tree_disk)
    as (_ & prints & more & Hrun & _); try reflexivity.
  by exists prints, more.
Defined.





(** ** Further properties of [WrapProject] *)

Section WrapProject.
Context {C D : Type} `{!gps.Constraint C}.
Implicit Types (E : kdep.Env C D) (gopaths deps : list string)
  (found : option (dep.Project C * string)) (m : kdep.Manifest C D)
  (base : dep.Project C) (sps : list (option (dep.Project C)))
  (sms : gmap string (dep.Manifest C)) (extra : gmap string string).

(** The directory where [sub] is looked for under the gopath [g]. *)
Definition candidate_dir E (root g sub : string) : string :=
  Join (kdep.world E) [root; g; "src"; sub].

Lemma locate_first E root sub before g after :
  (∀ g', g' ∈ before → Stat (kdep.world E) (candidate_dir E root g' sub) = false) →
  Stat (kdep.world E) (candidate_dir E root g sub) = true →
  kdep.locate E root sub (before ++ g :: after)
  = (proj ← LoadProject (kdep.world E) (candidate_dir E root g sub);
     Ok (Some (kdep.set_ImportRoot proj sub, candidate_dir E root g sub))).
Proof.
  intros Hbefore Hg. induction before as [|g' before IH]; cbn [app kdep.locate].
  - fold (candidate_dir E root g sub). by rewrite Hg.
  - fold (candidate_dir E root g' sub).
    rewrite (Hbefore g') by apply list_elem_of_here.
    apply IH. intros g'' Hin. apply Hbefore. by apply list_elem_of_further.
Qed.

(** X1: the search for a local dependency takes the first gopath under
    which the dependency exists: the gopaths after it are not looked at, and
    the result is the project loaded there, under the dependency's name, or
    the error of loading it. *)
Theorem locate_takes_first_gopath E root sub before g after :
  (∀ g', g' ∈ before → Stat (kdep.world E) (candidate_dir E root g' sub) = false) →
  Stat (kdep.world E) (candidate_dir E root g sub) = true →
  kdep.locate E root sub (before ++ g :: after)
  = (proj ← LoadProject (kdep.world E) (candidate_dir E root g sub);
     Ok (Some (kdep.set_ImportRoot proj sub, candidate_dir E root g sub))).
Proof. apply locate_first. Qed.

Lemma locate_Some E root sub gopaths proj cand :
  kdep.locate E root sub gopaths = Ok (Some (proj, cand)) →
  dep.ImportRoot proj = sub
  ∧ ∃ before g after loaded,
      gopaths = before ++ g :: after
      ∧ (∀ g', g' ∈ before →
           Stat (kdep.world E) (candidate_dir E root g' sub) = false)
      ∧ cand = candidate_dir E root g sub
      ∧ Stat (kdep.world E) cand = true
      ∧ LoadProject (kdep.world E) cand = Ok loaded
      ∧ proj = kdep.set_ImportRoot loaded sub.
Proof.
  induction gopaths as [|g gopaths IH]; cbn [kdep.locate]; [done|].
  fold (candidate_dir E root g sub).
  destruct (Stat (kdep.world E) (candidate_dir E root g sub)) eqn:Hstat.
  - destruct (LoadProject (kdep.world E) (candidate_dir E root g sub))
      as [loaded| |] eqn:Hload; [|done..].
    rewrite bind_Ok. intros [= <- <-]. split; [done|].
    exists [], g, gopaths, loaded. repeat split; try done.
    intros g' Hg'. by apply elem_of_nil in Hg'.
  - intros Hrest.
    destruct (IH Hrest) as (Hroot & before & g' & after & loaded & -> & Hbefore & Hrest').
    split; [done|]. exists (g :: before), g', after, loaded.
    split; [done|]. split; [|done].
    intros g'' Hin. apply elem_of_cons in Hin as [->|Hin]; [done|by apply Hbefore].
Qed.

Lemma locate_None E root sub gopaths :
  kdep.locate E root sub gopaths = Ok None
  ↔ ∀ g, g ∈ gopaths → Stat (kdep.world E) (candidate_dir E root g sub) = false.
Proof.
  induction gopaths as [|g gopaths IH]; cbn [kdep.locate].
  - split; [|done]. intros _ g Hg. by apply elem_of_nil in Hg.
  - fold (candidate_dir E root g sub).
    destruct (Stat (kdep.world E) (candidate_dir E root g sub)) eqn:Hstat.
    + split.
      * by destruct (LoadProject (kdep.world E) (candidate_dir E root g sub)).
      * intros Hall. specialize (Hall g (list_elem_of_here _ _)). congruence.
    + rewrite IH. split.
      * intros Hrest g' Hg'. apply elem_of_cons in Hg' as [->|Hg']; [done|].
        by apply Hrest.
      * intros Hall g' Hg'. apply Hall. by apply list_elem_of_further.
Qed.

(** What the search finds for [sub], if it ends without an error. *)
Definition located E root gopaths (sub : string) : option (dep.Project C * string) :=
  match kdep.locate E root sub gopaths with
  | Ok found => found
  | _ => None
  end.

Lemma located_ImportRoot E root gopaths sub proj cand :
  located E root gopaths sub = Some (proj, cand) → dep.ImportRoot proj = sub.
Proof.
  unfold located.
  destruct (kdep.locate E root sub gopaths) as [found| |] eqn:Hloc; [|done..].
  intros ->. by destruct (locate_Some _ _ _ _ Hloc).
Qed.

(** The outer loop of [WrapProject], from any state: it succeeds exactly
    when every search ends without an error; the sub-projects are appended
    in [LocalDeps] order, and the two tables get an entry for each
    dependency found. *)
Lemma locate_all_from E root gopaths deps sps sms extra
    (sps' : list (option (dep.Project C))) (sms' : gmap string (dep.Manifest C))
    (extra' : gmap string string) :
  for_each
    (λ '(sps, sms, extra) sub,
       found ← kdep.locate E root sub gopaths;
       match found with
       | Some (proj, candidate) =>
           let imp := dep.ImportRoot proj in
           Ok (sps ++ [Some proj], <[imp := dep.Manifest_ proj]> sms,
               <[imp := candidate]> extra)
       | None => Ok (sps ++ [None], sms, extra)
       end)
    (sps, sms, extra) deps = Ok (sps', sms', extra') →
  Forall (λ sub, kdep.locate E root sub gopaths = Ok (located E root gopaths sub)) deps
  ∧ sps' = sps ++ ((λ sub, fst <$> located E root gopaths sub) <$> deps)
  ∧ (∀ imp, extra' !! imp
       = match (if bool_decide (imp ∈ deps) then located E root gopaths imp else None) with
         | Some (_, cand) => Some cand
         | None => extra !! imp
         end)
  ∧ (∀ imp, sms' !! imp
       = match (if bool_decide (imp ∈ deps) then located E root gopaths imp else None) with
         | Some (proj, _) => Some (dep.Manifest_ proj)
         | None => sms !! imp
         end).
Proof.
  revert sps sms extra; induction deps as [|sub deps IH]; intros sps sms extra.
  - intros [= <- <- <-]. split; [constructor|]. cbn [fmap list_fmap].
    rewrite app_nil_r. split; [done|]. split; intros imp;
      by rewrite bool_decide_false by apply not_elem_of_nil.
  - rewrite for_each_cons. cbv beta iota.
    assert (Hmem : ∀ imp, imp ≠ sub →
              bool_decide (imp ∈ sub :: deps) = bool_decide (imp ∈ deps)).
    { intros imp Hne. apply bool_decide_ext. rewrite elem_of_cons. tauto. }
    assert (Hhere : bool_decide (sub ∈ sub :: deps) = true).
    { apply bool_decide_true, list_elem_of_here. }
    destruct (kdep.locate E root sub gopaths) as [found| |] eqn:Hloc; [|done..].
    assert (Hl : located E root gopaths sub = found).
    { unfold located. by rewrite Hloc. }
    rewrite bind_Ok.
    destruct found as [[proj cand]|]; cbv zeta; rewrite bind_Ok; intros Hrest;
      destruct (IH _ _ _ Hrest) as (Hall & -> & Hextra & Hsms);
      (split; [constructor; [by rewrite Hl|exact Hall]|]);
      (split; [cbn [fmap list_fmap]; rewrite Hl; by rewrite <- app_assoc|]).
    + destruct (locate_Some _ _ _ _ Hloc) as [Hroot _].
      rewrite Hroot in Hextra, Hsms.
      split; intros imp; [rewrite Hextra|rewrite Hsms];
        (destruct (decide (imp = sub)) as [->|Hne];
         [rewrite Hhere, Hl; destruct (bool_decide (sub ∈ deps));
          [done|by rewrite lookup_insert_eq]
         |by rewrite (Hmem imp Hne), lookup_insert_ne by done]).
    + split; intros imp; [rewrite Hextra|rewrite Hsms];
        (destruct (decide (imp = sub)) as [->|Hne];
         [rewrite Hhere, Hl; by destruct (bool_decide (sub ∈ deps))
         |by rewrite (Hmem imp Hne)]).
Qed.

(** What [WrapProject] does on a kdep root, flag unset. *)
Lemma WrapProject_root E base m :
  kdep.manifestFromProject E (Some base) = Some m →
  kdep.IsKdepRoot (kdep.Meta_ m) = true →
  kdep.WrapProject E false (Some base)
  = (false,
     '(sps, sms, extra) ← kdep.locate_all E (dep.ResolvedAbsRoot base) m;
     ds ← kdep.GetPackageDependencies E
       (kdep.mkDepsBuilder (dep.AbsRoot base) (dep.ImportRoot base)
          (kdep.LocalDeps (kdep.Meta_ m)) (kdep.LocalGopaths (kdep.Meta_ m)));
     Ok (kdep.mkProject (Some base) (kdep.mkManifest (kdep.Meta_ m) sms (Some ds))
           sps extra)).
Proof.
  intros Hm Hroot. unfold kdep.WrapProject. rewrite Hm, Hroot.
  cbn [negb andb deref]. rewrite bind_Ok, Hroot. reflexivity.
Qed.

(** A successful wrap with the flag left unset is the wrap of a kdep root. *)
Lemma WrapProject_Ok_inv E p res :
  kdep.WrapProject E false p = (false, Ok res) →
  ∃ base m sps sms extra (ds : D),
    p = Some base
    ∧ kdep.manifestFromProject E p = Some m
    ∧ kdep.IsKdepRoot (kdep.Meta_ m) = true
    ∧ kdep.locate_all E (dep.ResolvedAbsRoot base) m = Ok (sps, sms, extra)
    ∧ kdep.GetPackageDependencies E
        (kdep.mkDepsBuilder (dep.AbsRoot base) (dep.ImportRoot base)
           (kdep.LocalDeps (kdep.Meta_ m)) (kdep.LocalGopaths (kdep.Meta_ m)))
      = Ok ds
    ∧ res = kdep.mkProject (Some base)
              (kdep.mkManifest (kdep.Meta_ m) sms (Some ds)) sps extra.
Proof.
  unfold kdep.WrapProject.
  destruct (kdep.manifestFromProject E p) as [m|] eqn:Hm; cbn [negb andb deref];
    [|intros [=]].
  rewrite bind_Ok.
  destruct (kdep.IsKdepRoot (kdep.Meta_ m)) eqn:Hroot; cbn [negb andb].
  - destruct p as [base|]; [|intros [=]].
    cbn [deref]. rewrite bind_Ok.
    destruct (kdep.locate_all E (dep.ResolvedAbsRoot base) m)
      as [[[sps sms] extra]| |] eqn:Hloc; [|intros [=]..].
    rewrite bind_Ok.
    destruct (kdep.GetPackageDependencies E _) as [ds| |] eqn:Hdeps;
      [|intros [=]..].
    rewrite bind_Ok. intros [= <-].
    by exists base, m, sps, sms, extra, ds.
  - destruct (kdep.IsKdepChild (kdep.Meta_ m)); cbn [negb]; intros [=].
Qed.

(** X2: a project whose kdep manifest marks it as a child and not as a
    root cannot be wrapped: the error is [not a kdep root], whatever the
    project holds, and the flag stays unset. *)
Theorem WrapProject_rejects_kdep_child E p m :
  kdep.manifestFromProject E p = Some m →
  kdep.IsKdepRoot (kdep.Meta_ m) = false →
  kdep.IsKdepChild (kdep.Meta_ m) = true →
  kdep.WrapProject E false p = (false, Err "not a kdep root").
Proof.
  intros Hm Hroot Hchild. unfold kdep.WrapProject.
  rewrite Hm, Hroot, Hchild. cbn [negb andb deref].
  by rewrite bind_Ok, Hroot.
Qed.

(** X3: a kdep-mode wrap that succeeds returns one sub-project per entry of
    [LocalDeps], in order.  The sub-project of a dependency found under a
    gopath is the project loaded from the first such directory, with the
    dependency's name as its import root; the sub-project of a dependency
    found under no gopath is nil. *)
Theorem WrapProject_pairs_subprojects_with_LocalDeps E p res :
  kdep.WrapProject E false p = (false, Ok res) →
  ∃ base m,
    p = Some base
    ∧ kdep.manifestFromProject E p = Some m
    ∧ kdep.Project_ res = Some base
    ∧ kdep.Meta_ (kdep.Manifest_ res) = kdep.Meta_ m
    ∧ Forall2
        (λ sub sp,
           match sp with
           | Some proj =>
               dep.ImportRoot proj = sub
               ∧ ∃ before g after loaded,
                   kdep.LocalGopaths (kdep.Meta_ m) = before ++ g :: after
                   ∧ (∀ g', g' ∈ before →
                        Stat (kdep.world E)
                          (candidate_dir E (dep.ResolvedAbsRoot base) g' sub) = false)
                   ∧ Stat (kdep.world E)
                       (candidate_dir E (dep.ResolvedAbsRoot base) g sub) = true
                   ∧ LoadProject (kdep.world E)
                       (candidate_dir E (dep.ResolvedAbsRoot base) g sub) = Ok loaded
                   ∧ proj = kdep.set_ImportRoot loaded sub
           | None =>
               ∀ g, g ∈ kdep.LocalGopaths (kdep.Meta_ m) →
                 Stat (kdep.world E)
                   (candidate_dir E (dep.ResolvedAbsRoot base) g sub) = false
           end)
        (kdep.LocalDeps (kdep.Meta_ m)) (kdep.SubProjects res).
Proof.
  intros Hwrap.
  destruct (WrapProject_Ok_inv _ _ Hwrap)
    as (base & m & sps & sms & extra & ds & -> & Hm & Hroot & Hloc & Hdeps & ->).
  exists base, m. do 4 (split; [done|]). cbn [kdep.SubProjects].
  unfold kdep.locate_all in Hloc.
  apply locate_all_from in Hloc as (Hall & -> & _ & _). cbn [app].
  apply Forall2_fmap_r, Forall_Forall2_diag.
  eapply Forall_impl; [exact Hall|]. intros sub Hsub. unfold compose. cbv beta in Hsub |- *.
  destruct (located _ _ _ sub) as [[proj cand]|]; simpl.
  - apply locate_Some in Hsub
      as (Himp & before & g & after & loaded & Hsplit & Hbefore & -> & Hstat & Hload & ->).
    split; [done|]. by exists before, g, after, loaded.
  - by apply locate_None.
Qed.


Lemma WrapProject_tables E base m res imp :
  kdep.manifestFromProject E (Some base) = Some m →
  kdep.WrapProject E false (Some base) = (false, Ok res) →
  (∀ cand,
     kdep.extraVendorEntries res !! imp = Some cand
     ↔ imp ∈ kdep.LocalDeps (kdep.Meta_ m)
       ∧ ∃ proj, kdep.locate E (dep.ResolvedAbsRoot base) imp
                   (kdep.LocalGopaths (kdep.Meta_ m)) = Ok (Some (proj, cand)))
  ∧ (∀ man,
       kdep.SubManifests (kdep.Manifest_ res) !! imp = Some man
       ↔ imp ∈ kdep.LocalDeps (kdep.Meta_ m)
         ∧ ∃ proj cand, kdep.locate E (dep.ResolvedAbsRoot base) imp
                          (kdep.LocalGopaths (kdep.Meta_ m)) = Ok (Some (proj, cand))
                        ∧ man = dep.Manifest_ proj).
Proof.
  intros Hm Hwrap.
  destruct (WrapProject_Ok_inv _ _ Hwrap)
    as (base' & m' & sps & sms & extra & ds & [= <-] & Hm' & Hroot & Hloc & Hdeps & ->).
  rewrite Hm in Hm'. injection Hm' as <-.
  cbn [kdep.extraVendorEntries kdep.SubManifests kdep.Manifest_].
  unfold kdep.locate_all in Hloc.
  apply locate_all_from in Hloc as (Hall & _ & Hextra & Hsms).
  rewrite Hextra, Hsms, lookup_empty, lookup_empty.
  case_bool_decide as Hin.
  - rewrite Forall_forall in Hall. rewrite (Hall imp Hin).
    destruct (located E (dep.ResolvedAbsRoot base)
                (kdep.LocalGopaths (kdep.Meta_ m)) imp) as [[proj c]|].
    + split.
      * intros cand. split.
        -- intros [= <-]. split; [done|]. by exists proj.
        -- intros (_ & proj' & [= _ ->]). done.
      * intros man. split.
        -- intros [= <-]. split; [done|]. by exists proj, c.
        -- intros (_ & proj' & c' & [= <- _] & ->). done.
    + split; intros x; (split; [done|]).
      * intros (_ & proj & [=]).
      * intros (_ & proj & c & [=] & _).
  - split; intros x; (split; [done|]); by intros [? _].
Qed.

(** X4: after a successful kdep-mode wrap, the table of extra vendor entries
    maps exactly the local dependencies that were found to the directory
    where each was found, and the table of sub-manifests maps the same names
    to the manifests of the projects loaded there. *)
Theorem WrapProject_tables_hold_found_dependencies E base m res imp :
  kdep.manifestFromProject E (Some base) = Some m →
  kdep.WrapProject E false (Some base) = (false, Ok res) →
  (∀ cand,
     kdep.extraVendorEntries res !! imp = Some cand
     ↔ imp ∈ kdep.LocalDeps (kdep.Meta_ m)
       ∧ ∃ proj, kdep.locate E (dep.ResolvedAbsRoot base) imp
                   (kdep.LocalGopaths (kdep.Meta_ m)) = Ok (Some (proj, cand)))
  ∧ (∀ man,
       kdep.SubManifests (kdep.Manifest_ res) !! imp = Some man
       ↔ imp ∈ kdep.LocalDeps (kdep.Meta_ m)
         ∧ ∃ proj cand, kdep.locate E (dep.ResolvedAbsRoot base) imp
                          (kdep.LocalGopaths (kdep.Meta_ m)) = Ok (Some (proj, cand))
                        ∧ man = dep.Manifest_ proj).
Proof. apply WrapProject_tables. Qed.

(** The outer loop stops at the first search that ends in an error. *)
Lemma locate_all_stops E root gopaths before sub after e sps sms extra :
  (∀ s, s ∈ before → ∃ found, kdep.locate E root s gopaths = Ok found) →
  kdep.locate E root sub gopaths = Err e →
  for_each
    (λ '(sps, sms, extra) sub,
       found ← kdep.locate E root sub gopaths;
       match found with
       | Some (proj, candidate) =>
           let imp := dep.ImportRoot proj in
           Ok (sps ++ [Some proj], <[imp := dep.Manifest_ proj]> sms,
               <[imp := candidate]> extra)
       | None => Ok (sps ++ [None], sms, extra)
       end)
    (sps, sms, extra) (before ++ sub :: after) = Err e.
Proof.
  intros Hbefore Hsub. revert sps sms extra.
  induction before as [|s before IH]; intros sps sms extra; cbn [app];
    rewrite for_each_cons; cbv beta iota.
  - by rewrite Hsub.
  - destruct (Hbefore s (list_elem_of_here _ _)) as [found Hs]. rewrite Hs, bind_Ok.
    destruct found as [[proj cand]|]; cbv zeta; rewrite bind_Ok; apply IH;
      intros s' Hs'; apply Hbefore; by apply list_elem_of_further.
Qed.

(** X5: wrapping a kdep root fails with the error of loading a local
    dependency whose directory exists under a gopath but holds no loadable
    project, provided the searches for the dependencies listed before it
    ended without an error. *)
Theorem WrapProject_returns_first_load_error
    E base m before sub after gbefore g gafter e :
  kdep.manifestFromProject E (Some base) = Some m →
  kdep.IsKdepRoot (kdep.Meta_ m) = true →
  kdep.LocalDeps (kdep.Meta_ m) = before ++ sub :: after →
  (∀ s, s ∈ before →
     ∃ found, kdep.locate E (dep.ResolvedAbsRoot base) s
                (kdep.LocalGopaths (kdep.Meta_ m)) = Ok found) →
  kdep.LocalGopaths (kdep.Meta_ m) = gbefore ++ g :: gafter →
  (∀ g', g' ∈ gbefore →
     Stat (kdep.world E) (candidate_dir E (dep.ResolvedAbsRoot base) g' sub) = false) →
  Stat (kdep.world E) (candidate_dir E (dep.ResolvedAbsRoot base) g sub) = true →
  LoadProject (kdep.world E) (candidate_dir E (dep.ResolvedAbsRoot base) g sub) = Err e →
  kdep.WrapProject E false (Some base) = (false, Err e).
Proof.
  intros Hm Hroot Hdeps Hbefore Hgs Hgbefore Hg Hload.
  rewrite (WrapProject_root E base Hm Hroot). f_equal.
  unfold kdep.locate_all. rewrite Hdeps.
  rewrite (@locate_all_stops E (dep.ResolvedAbsRoot base)
             (kdep.LocalGopaths (kdep.Meta_ m)) before sub after e [] ∅ ∅ Hbefore).
  - done.
  - rewrite Hgs, (@locate_first E _ _ _ _ gafter Hgbefore Hg). by rewrite Hload.
Qed.

Lemma options_all_or_nil {A} (l : list (option A)) :
  (∃ ss, l = Some <$> ss) ∨ (∃ ps rest, l = (Some <$> ps) ++ None :: rest).
Proof.
  induction l as [|[a|] l IH].
  - left. by exists [].
  - destruct IH as [[ss ->]|(ps & rest & ->)].
    + left. by exists (a :: ss).
    + right. by exists (a :: ps), rest.
  - right. by exists [], l.
Qed.

(** With the base tree parsed, a nil sub-project makes the merge panic. *)
Lemma ParseRootPackageTree_nil_sub (kp : kdep.Project C D) base tree ps rest :
  kdep.Project_ kp = Some base →
  dep.parsed base = (tree, None) →
  kdep.SubProjects kp = (Some <$> ps) ++ None :: rest →
  kdep.ParseRootPackageTree false kp = Panic.
Proof.
  intros Hp Htree Hss. unfold kdep.ParseRootPackageTree.
  rewrite Hp. cbn [deref]. rewrite bind_Ok.
  unfold dep.ParseRootPackageTree. rewrite Htree, Hss, overlay_nil_sub. done.
Qed.

(** X6: on a project that [WrapProject] returned in kdep mode and whose own
    tree parsed, [ParseRootPackageTree] panics exactly when some local
    dependency is under none of the gopaths; otherwise it returns a tree and
    no error. *)
Theorem wrapped_tree_panics_iff_dependency_missing E base m res tree :
  kdep.manifestFromProject E (Some base) = Some m →
  kdep.WrapProject E false (Some base) = (false, Ok res) →
  dep.parsed base = (tree, None) →
  (kdep.ParseRootPackageTree false res = Panic
   ↔ ∃ sub, sub ∈ kdep.LocalDeps (kdep.Meta_ m)
            ∧ ∀ g, g ∈ kdep.LocalGopaths (kdep.Meta_ m) →
                Stat (kdep.world E)
                  (candidate_dir E (dep.ResolvedAbsRoot base) g sub) = false)
  ∧ (kdep.ParseRootPackageTree false res = Panic
     ∨ ∃ t, kdep.ParseRootPackageTree false res = Ok (t, None)).
Proof.
  intros Hm Hwrap Htree.
  destruct (WrapProject_Ok_inv _ _ Hwrap)
    as (base' & m' & sps & sms & extra & ds & [= <-] & Hm' & Hroot & Hloc & Hdeps & ->).
  rewrite Hm in Hm'. injection Hm' as <-.
  unfold kdep.locate_all in Hloc.
  apply locate_all_from in Hloc as (Hall & Hsps & _ & _). cbn [app] in Hsps.
  rewrite Forall_forall in Hall.
  set (kp := kdep.mkProject _ _ _ _).
  assert (Hmissing : None ∈ sps ↔
            ∃ sub, sub ∈ kdep.LocalDeps (kdep.Meta_ m)
                   ∧ ∀ g, g ∈ kdep.LocalGopaths (kdep.Meta_ m) →
                       Stat (kdep.world E)
                         (candidate_dir E (dep.ResolvedAbsRoot base) g sub) = false).
  { rewrite Hsps, list_elem_of_fmap. split.
    - intros (sub & Hnone & Hin). exists sub. split; [done|].
      apply locate_None. rewrite (Hall sub Hin).
      by destruct (located _ _ _ sub).
    - intros (sub & Hin & Hstat). exists sub. split; [|done].
      apply locate_None in Hstat. rewrite (Hall sub Hin) in Hstat.
      injection Hstat as ->. done. }
  destruct (options_all_or_nil sps) as [[ss Hss]|(ps & rest & Hss)].
  - assert (Hok : kdep.ParseRootPackageTree false kp
                  = Ok (gps.mkTree (gps.ImportRoot tree)
                          (overlay_all
                             (kdep.strip (dep.ImportRoot base)
                                (kdep.LocalGopaths (kdep.Meta_ (kdep.Manifest_ kp)))
                                (gps.Packages tree)) ss), None)).
    { by apply (@ParseRootPackageTree_kdep _ _ kp base tree ss). }
    split; [|right; by eexists].
    rewrite Hok, <- Hmissing, Hss. split; [done|].
    intros Hin. apply list_elem_of_fmap in Hin as (? & [=] & _).
  - assert (Hpanic : kdep.ParseRootPackageTree false kp = Panic).
    { by apply (@ParseRootPackageTree_nil_sub kp base tree ps rest). }
    split; [|by left].
    rewrite <- Hmissing, Hss. split; [|done].
    intros _. apply elem_of_app. right. apply list_elem_of_here.
Qed.

End WrapProject.

(** *** Concrete wraps *)

(** The kdep root [/r] with the local dependency [x] on disk under [gp]. *)
Definition kenv_x : kdep.Env VConstraint unit :=
  kenv_of {[ "/r/gp/src/x" := sub_x ]} {[ "root" := root_meta ["x"] ]}.

(** The same root where every directory exists and none holds a project. *)
Definition kenv_unloadable : kdep.Env VConstraint unit :=
  {| kdep.world :=
       {| Join := String.concat "/";
          Dir := λ p, p;
          Rel := λ _ target, target;
          Stat := λ _, true;
          Open := λ _, Err "no such file";
          LoadProject := λ _, Err "no manifest" |};
     kdep.manifestFromProject := kdep.manifestFromProject kenv_x;
     kdep.WrapManifest := kdep.WrapManifest kenv_x;
     kdep.GetPackageDependencies := kdep.GetPackageDependencies kenv_x;
     kdep.depMakeParams := kdep.depMakeParams kenv_x;
     kdep.MarshalIndent := kdep.MarshalIndent kenv_x;
     kdep.WriteErr := kdep.WriteErr kenv_x |}.

Lemma locate_takes_first_gopath_witness :
  kdep.locate kenv_x "/r" "x" ["other"; "gp"; "later"]
  = Ok (Some (kdep.set_ImportRoot sub_x "x", "/r/gp/src/x")).
Proof.
  apply (@locate_takes_first_gopath _ _ kenv_x "/r" "x" ["other"] "gp" ["later"]).
  - intros g Hg. apply list_elem_of_singleton in Hg as ->. reflexivity.
  - reflexivity.
Defined.

Lemma WrapProject_rejects_kdep_child_witness :
  kdep.WrapProject
    (kenv_of ∅ {[ "root" := kdep.mkMeta false true false [] [] ]}) false
    (Some (p_root ∅))
  = (false, Err "not a kdep root").
Proof.
  apply (@WrapProject_rejects_kdep_child _ _
           (kenv_of ∅ {[ "root" := kdep.mkMeta false true false [] [] ]})
           (Some (p_root ∅)) (kmanifest (kdep.mkMeta false true false [] [])));
    reflexivity.
Defined.

(** What wrapping the root of [kenv_x] returns. *)
Definition wrapped_x : kdep.Project VConstraint unit :=
  kdep.mkProject (Some (p_root ∅))
    (kdep.mkManifest (root_meta ["x"]) {[ "x" := manifest_of ∅ ]} (Some tt))
    [Some (kdep.set_ImportRoot sub_x "x")]
    {[ "x" := "/r/gp/src/x" ]}.

Lemma WrapProject_pairs_subprojects_with_LocalDeps_witness :
  ∃ base m,
    kdep.manifestFromProject kenv_x (Some (p_root ∅)) = Some m
    ∧ kdep.Project_ wrapped_x = Some base
    ∧ length (kdep.LocalDeps (kdep.Meta_ m)) = length (kdep.SubProjects wrapped_x).
Proof.
  destruct (@WrapProject_pairs_subprojects_with_LocalDeps _ _ kenv_x
              (Some (p_root ∅)) wrapped_x eq_refl)
    as (base & m & _ & Hm & Hp & _ & Hall).
  exists base, m. split; [exact Hm|]. split; [exact Hp|].
  exact (Forall2_length _ _ _ Hall).
Defined.

Lemma WrapProject_tables_hold_found_dependencies_witness :
  kdep.extraVendorEntries wrapped_x !! "x" = Some "/r/gp/src/x"
  ∧ kdep.SubManifests (kdep.Manifest_ wrapped_x) !! "x" = Some (manifest_of ∅).
Proof.
  destruct (@WrapProject_tables_hold_found_dependencies _ _ kenv_x (p_root ∅)
              (kmanifest (root_meta ["x"])) wrapped_x "x" eq_refl eq_refl)
    as [Hextra Hsms].
  split.
  - apply Hextra. split; [apply list_elem_of_here|]. eexists. reflexivity.
  - apply Hsms. split; [apply list_elem_of_here|]. eexists _, _. split; reflexivity.
Defined.

Lemma WrapProject_returns_first_load_error_witness :
  kdep.WrapProject kenv_unloadable false (Some (p_root ∅))
  = (false, Err "no manifest").
Proof.
  apply (@WrapProject_returns_first_load_error _ _ kenv_unloadable (p_root ∅)
           (kmanifest (root_meta ["x"])) [] "x" [] [] "gp" [] "no manifest");
    try reflexivity.
  - intros s Hs. by apply elem_of_nil in Hs.
  - intros g Hg. by apply elem_of_nil in Hg.
Defined.

Lemma wrapped_tree_panics_iff_dependency_missing_witness :
  ∃ t, kdep.ParseRootPackageTree false wrapped_x = Ok (t, None).
Proof.
  destruct (@wrapped_tree_panics_iff_dependency_missing _ _ kenv_x (p_root ∅)
              (kmanifest (root_meta ["x"])) wrapped_x (gps.mkTree "root" ∅)
              eq_refl eq_refl eq_refl) as [Hiff [Hpanic|Hok]].
  - apply Hiff in Hpanic as (sub & Hin & Hstat).
    apply list_elem_of_singleton in Hin as ->.
    specialize (Hstat "gp" (list_elem_of_here _ _)). discriminate Hstat.
  - exact Hok.
Defined.

(** ** Further properties of the kdep package tree *)

Lemma append_assoc (s t u : string) : (s +:+ t) +:+ u = s +:+ (t +:+ u).
Proof.
  induction s as [|a s IH]; [done|].
  change (String a ((s +:+ t) +:+ u) = String a (s +:+ (t +:+ u))).
  by rewrite IH.
Qed.

Lemma prefix_app (s t : string) : String.prefix s (s +:+ t) = true.
Proof.
  induction s as [|a s IH]; simpl; [by destruct t|].
  destruct (Ascii.ascii_dec a a); [exact IH|done].
Qed.

(** Every import path that starts with [root/gp], for a local gopath [gp],
    falls under a strip prefix, whatever follows. *)
Lemma stripped_prefix root gopaths gp suffix :
  gp ∈ gopaths →
  stripped root gopaths (root +:+ "/" +:+ gp +:+ suffix) = true.
Proof.
  intros Hgp. unfold stripped. apply existsb_exists. exists gp.
  split; [by apply list_elem_of_In|].
  unfold HasPrefix.
  replace (root +:+ "/" +:+ gp +:+ suffix) with ((root +:+ "/" +:+ gp) +:+ suffix).
  - apply prefix_app.
  - by rewrite !append_assoc.
Qed.

Section KdepTreeEdges.
Context {C D : Type}.
Implicit Types (kp : kdep.Project C D) (base : dep.Project C)
  (ss : list (dep.Project C)) (pkgs acc : gmap string gps.PackageOrErr).

(** X7: when dep's own parse of the project reports an error, the kdep
    [ParseRootPackageTree] returns dep's tree and error as they are, in
    either mode: nothing is stripped or overlaid, and the sub-projects, nil
    or not, are not looked at. *)
Theorem ParseRootPackageTree_returns_base_error kp base tree e (flag : bool) :
  kdep.Project_ kp = Some base →
  dep.parsed base = (tree, Some e) →
  kdep.ParseRootPackageTree flag kp = Ok (tree, Some e).
Proof.
  intros Hp Htree. unfold kdep.ParseRootPackageTree.
  rewrite Hp. cbn [deref]. rewrite bind_Ok.
  unfold dep.ParseRootPackageTree. rewrite Htree. by destruct flag.
Qed.

(** X8: the strip prefix [ImportRoot/gp] is compared as a string, not as a
    path: a package of the base tree whose import path merely starts with
    it, such as [ImportRoot/gpx/...] for the gopath [gp], is dropped from the
    merged tree unless a sub-project brings the path back. *)
Theorem strip_prefix_is_not_a_path_boundary kp base tree ss gp suffix :
  kdep.Project_ kp = Some base →
  dep.parsed base = (tree, None) →
  kdep.SubProjects kp = Some <$> ss →
  gp ∈ kdep.LocalGopaths (kdep.Meta_ (kdep.Manifest_ kp)) →
  last_entry (dep.ImportRoot base +:+ "/" +:+ gp +:+ suffix) ss = None →
  ∃ res,
    kdep.ParseRootPackageTree false kp = Ok (res, None)
    ∧ gps.Packages res !! (dep.ImportRoot base +:+ "/" +:+ gp +:+ suffix) = None.
Proof.
  intros Hp Htree Hss Hgp Hlast. eexists. split.
  - by apply ParseRootPackageTree_kdep.
  - cbn [gps.Packages].
    by rewrite lookup_overlay_all, Hlast, lookup_strip, stripped_prefix.
Qed.

(** X9: the first loop of the kdep [ParseRootPackageTree] deletes from the
    map it ranges over; its result is the same in whatever order the
    entries are visited. *)
Theorem strip_any_iteration_order root gopaths pkgs
    (l : list (string * gps.PackageOrErr)) :
  l ≡ₚ map_to_list pkgs →
  foldl (kdep.strip_entry root gopaths) pkgs l = kdep.strip root gopaths pkgs.
Proof.
  intros Hl. apply map_eq; intros k.
  rewrite lookup_strip, lookup_foldl_strip_entry.
  destruct (stripped root gopaths k); cbn [andb]; [|done].
  case_bool_decide as Hk; [done|].
  destruct (pkgs !! k) as [poe|] eqn:Hpk; [|done].
  exfalso. apply Hk. apply list_elem_of_fmap. exists (k, poe).
  split; [done|]. rewrite Hl. by apply elem_of_map_to_list.
Qed.

(** X10: copying the entries of one tree into another, as the overlay loops
    of both [ParseRootPackageTree] methods do, gives the same tree in
    whatever order the entries are visited. *)
Theorem copy_any_iteration_order acc (t : gmap string gps.PackageOrErr)
    (l : list (string * gps.PackageOrErr)) :
  l ≡ₚ map_to_list t →
  foldl workspace.copy_entry acc l = range_map workspace.copy_entry acc t.
Proof.
  intros Hl. rewrite range_map_copy_entry, foldl_copy_entry.
  - f_equal. apply map_to_list_inj. rewrite map_to_list_to_map; [done|].
    rewrite Hl. apply NoDup_fst_map_to_list.
  - rewrite Hl. apply NoDup_fst_map_to_list.
Qed.

End KdepTreeEdges.

Lemma ParseRootPackageTree_returns_base_error_witness :
  kdep.ParseRootPackageTree false
    (kdep.mkProject
       (Some (dep.mkProject "/r" "/r" "root" (manifest_of ∅) None
                (gps.mkTree "root" ∅, Some "no Go files")))
       (kmanifest (root_meta ["x"])) [None] ∅)
  = Ok (gps.mkTree "root" ∅, Some "no Go files").
Proof.
  apply (@ParseRootPackageTree_returns_base_error _ _
           (kdep.mkProject
              (Some (dep.mkProject "/r" "/r" "root" (manifest_of ∅) None
                       (gps.mkTree "root" ∅, Some "no Go files")))
              (kmanifest (root_meta ["x"])) [None] ∅)
           (dep.mkProject "/r" "/r" "root" (manifest_of ∅) None
              (gps.mkTree "root" ∅, Some "no Go files")));
    reflexivity.
Defined.

(** The package [root/gpx/tool] is not under the gopath [gp], yet it is
    stripped. *)
Lemma strip_prefix_is_not_a_path_boundary_witness :
  ∃ res,
    kdep.ParseRootPackageTree false
      (kproject (p_root {[ "root/gpx/tool" := gps.P [] ]}) (root_meta []) [])
    = Ok (res, None)
    ∧ gps.Packages res !! "root/gpx/tool" = None.
Proof.
  apply (@strip_prefix_is_not_a_path_boundary _ _
           (kproject (p_root {[ "root/gpx/tool" := gps.P [] ]}) (root_meta []) [])
           (p_root {[ "root/gpx/tool" := gps.P [] ]})
           (gps.mkTree "root" {[ "root/gpx/tool" := gps.P [] ]})
           [] "gp" "x/tool"); try reflexivity.
  apply list_elem_of_here.
Defined.

Lemma strip_any_iteration_order_witness :
  foldl (kdep.strip_entry "root" ["gp"])
    {[ "root/gp/a" := gps.P []; "root/b" := gps.P []; "root/gp/c" := gps.P [] ]}
    (reverse (map_to_list
       ({[ "root/gp/a" := gps.P []; "root/b" := gps.P []; "root/gp/c" := gps.P [] ]}
          : gmap string gps.PackageOrErr)))
  = kdep.strip "root" ["gp"]
      {[ "root/gp/a" := gps.P []; "root/b" := gps.P []; "root/gp/c" := gps.P [] ]}.
Proof.
  apply strip_any_iteration_order. apply reverse_Permutation.
Defined.

Lemma copy_any_iteration_order_witness :
  foldl workspace.copy_entry {[ "x" := gps.P ["old"] ]}
    (reverse (map_to_list
       ({[ "x" := gps.P ["new"]; "y" := gps.P [] ]} : gmap string gps.PackageOrErr)))
  = range_map workspace.copy_entry {[ "x" := gps.P ["old"] ]}
      {[ "x" := gps.P ["new"]; "y" := gps.P [] ]}.
Proof.
  apply copy_any_iteration_order. apply reverse_Permutation.
Defined.

(** ** Further properties of the workspace *)

Lemma foldl_insert_entries {V} (l : list (string * V)) (acc : gmap string V) :
  NoDup l.*1 →
  foldl (λ acc '(k, v), <[k := v]> acc) acc l = list_to_map l ∪ acc.
Proof.
  revert acc; induction l as [|[k v] l IH]; intros acc Hnd; cbn [foldl].
  - simpl. by rewrite (left_id_L ∅ (∪)).
  - cbn [fmap list_fmap fst] in Hnd. apply NoDup_cons in Hnd as [Hnotin Hnd].
    rewrite IH by done. cbn [list_to_map foldr].
    apply map_eq; intros k'. rewrite !lookup_union.
    destruct (decide (k = k')) as [->|Hne].
    + rewrite !lookup_insert_eq.
      rewrite (not_elem_of_list_to_map_1 _ k' Hnotin).
      by destruct (acc !! k').
    + by rewrite !lookup_insert_ne.
Qed.

Lemma elem_of_nil_member {A} (l : list (option A)) :
  None ∈ l → ∃ ps rest, l = (Some <$> ps) ++ None :: rest.
Proof.
  intros Hin. destruct (options_all_or_nil l) as [[ss ->]|Hsplit]; [|done].
  apply list_elem_of_fmap in Hin as (? & [=] & _).
Qed.

Lemma ignore_err_not_Err {A} (r : outcome A) e : ignore_err r ≠ Err e.
Proof. by destruct r. Qed.

Lemma bind_Err_inv {A B} (m : outcome A) (k : A → outcome B) e :
  (m ≫= k) = Err e → m = Err e ∨ ∃ a, m = Ok a ∧ k a = Err e.
Proof.
  destruct m as [a|e'|]; [|rewrite bind_Err; intros [= ->]; by left|done].
  rewrite bind_Ok. intros Hk. right. by exists a.
Qed.

Section WorkspaceEdges.
Context {C : Type} `{!gps.Constraint C}.
#[local] Existing Instances workspace.prog_bind workspace.prog_ret.
Implicit Types (E : workspace.Env C) (K : workspace.Collab C)
  (w : workspace.Workspace C) (ps : list (dep.Project C))
  (log : list (workspace.event (C:=C))).

(** X11: within one manifest, the inner loop of [DependencyConstraints]
    and [Overrides] gives the same table in whatever order the declarations
    are visited. *)
Theorem merge_any_iteration_order (cs extra : gps.ProjectConstraints C)
    (l : list (string * gps.ProjectProperties C)) :
  l ≡ₚ map_to_list extra →
  foldl workspace.merge_entry cs l = range_map workspace.merge_entry cs extra.
Proof. apply range_map_merge_entry_any_order. Qed.

(** X12: for a workspace whose members all loaded, the tables of
    [DependencyConstraints] and [Overrides] hold, for every root, the
    properties (source and constraint) of the first member that declares it,
    and no entry for a root that no member declares. *)
Theorem workspace_tables_hold_first_declaration w ps root :
  workspace.Projects w = Some <$> ps →
  ∃ t o,
    workspace.DependencyConstraints w = Ok t
    ∧ workspace.Overrides w = Ok o
    ∧ t !! root = first_declared dep.DependencyConstraints root ps
    ∧ o !! root = first_declared dep.Overrides root ps.
Proof.
  intros Hw. eexists _, _.
  split; [by apply aggregate_loaded|]. split; [by apply aggregate_loaded|].
  by rewrite !lookup_foldl_union, !lookup_empty.
Qed.

(** The value of [k] in the last manifest of [ps] that requires or
    un-requires it. *)
Fixpoint last_required (k : string) ps : option bool :=
  match ps with
  | [] => None
  | p :: ps' =>
      match last_required k ps' with
      | Some v => Some v
      | None => dep.RequiredPackages (dep.Manifest_ p) !! k
      end
  end.

Lemma RequiredPackages_from (acc : gmap string bool) ps :
  for_each
    (λ required p,
       p ← deref p;
       Ok (range_map (λ required '(k, v), <[k := v]> required) required
             (dep.RequiredPackages (dep.Manifest_ p))))
    acc (Some <$> ps)
  = Ok (foldl (λ acc p, dep.RequiredPackages (dep.Manifest_ p) ∪ acc) acc ps).
Proof.
  revert acc; induction ps as [|p ps IH]; intros acc; [done|].
  cbn [fmap list_fmap foldl]. rewrite for_each_cons. cbn [deref].
  rewrite !bind_Ok. unfold range_map.
  rewrite foldl_insert_entries by apply NoDup_fst_map_to_list.
  rewrite list_to_map_to_list. apply IH.
Qed.

Lemma lookup_foldl_required (acc : gmap string bool) ps k :
  foldl (λ acc p, dep.RequiredPackages (dep.Manifest_ p) ∪ acc) acc ps !! k
  = match last_required k ps with
    | Some v => Some v
    | None => acc !! k
    end.
Proof.
  revert acc; induction ps as [|p ps IH]; intros acc; cbn [foldl last_required].
  - done.
  - rewrite IH. destruct (last_required k ps); [done|].
    rewrite lookup_union.
    by destruct (dep.RequiredPackages (dep.Manifest_ p) !! k), (acc !! k).
Qed.

(** X13: where several members list the same package in their required
    sets, [RequiredPackages] keeps the value of the last member that lists
    it (the constraint tables keep the first declaration). *)
Theorem RequiredPackages_last_declaration_wins w ps :
  workspace.Projects w = Some <$> ps →
  ∃ required,
    workspace.RequiredPackages w = Ok required
    ∧ ∀ k, required !! k = last_required k ps.
Proof.
  intros Hw. eexists. split.
  - unfold workspace.RequiredPackages. rewrite Hw. apply RequiredPackages_from.
  - intros k. rewrite lookup_foldl_required, lookup_empty.
    by destruct (last_required k ps).
Qed.

(** The loop of [getProjects], from any list of projects already loaded. *)
Lemma getProjects_from E wd (pcks : list workspace.rawPackage)
    (acc projects : list (option (dep.Project C))) :
  for_each
    (λ projects pck,
       p ← ignore_err (LoadProject (workspace.world E)
                         (Join (workspace.world E) [wd; workspace.Path pck]));
       Ok (projects ++ [p]))
    acc pcks = Ok projects →
  ∃ loaded,
    projects = acc ++ loaded
    ∧ Forall2
        (λ pck p,
           match p with
           | Some proj =>
               LoadProject (workspace.world E)
                 (Join (workspace.world E) [wd; workspace.Path pck]) = Ok proj
           | None =>
               ∃ e, LoadProject (workspace.world E)
                      (Join (workspace.world E) [wd; workspace.Path pck]) = Err e
           end)
        pcks loaded.
Proof.
  revert acc; induction pcks as [|pck pcks IH]; intros acc.
  - intros [= <-]. exists []. split; [by rewrite app_nil_r|constructor].
  - rewrite for_each_cons.
    destruct (LoadProject (workspace.world E)
                (Join (workspace.world E) [wd; workspace.Path pck]))
      as [proj|e|] eqn:Hload; cbn [ignore_err]; [| |done];
      rewrite !bind_Ok; intros Hrest;
      destruct (IH _ Hrest) as (loaded & -> & Hall).
    + exists (Some proj :: loaded). split; [by rewrite <- app_assoc|].
      by constructor.
    + exists (None :: loaded). split; [by rewrite <- app_assoc|].
      constructor; [by exists e|done].
Qed.

(** What [NewWorkspace] builds, when it returns. *)
Lemma NewWorkspace_members E wd w :
  workspace.NewWorkspace E wd = Ok w →
  workspace.AbsRoot w = wd
  ∧ ∃ m,
      workspace.Manifest_ w = Some m
      ∧ workspace.NewManifest E wd = Ok (Some m)
      ∧ Forall2
          (λ pck p,
             match p with
             | Some proj =>
                 LoadProject (workspace.world E)
                   (Join (workspace.world E) [wd; workspace.Path pck]) = Ok proj
             | None =>
                 ∃ e, LoadProject (workspace.world E)
                        (Join (workspace.world E) [wd; workspace.Path pck]) = Err e
             end)
          (workspace.Packages m) (workspace.Projects w).
Proof.
  unfold workspace.NewWorkspace.
  destruct (workspace.NewManifest E wd) as [[m|]| |]; [| |done..].
  - rewrite bind_Ok.
    destruct (workspace.NewLock E wd) as [l| |]; [|done..].
    rewrite bind_Ok. unfold workspace.getProjects. cbn [deref]. rewrite bind_Ok.
    destruct (for_each _ [] (workspace.Packages m)) as [projects| |] eqn:Hloop;
      [|done..].
    rewrite bind_Ok. intros [= <-].
    cbn [workspace.AbsRoot workspace.Manifest_ workspace.Projects].
    split; [done|]. exists m. do 2 (split; [done|]).
    by destruct (getProjects_from _ _ _ _ Hloop) as (loaded & -> & Hall).
  - rewrite bind_Ok. destruct (workspace.NewLock E wd) as [l| |]; [|done..].
    by rewrite bind_Ok.
Qed.

Lemma getProjects_loop_not_Err E wd (pcks : list workspace.rawPackage)
    (acc : list (option (dep.Project C))) e :
  for_each
    (λ projects pck,
       p ← ignore_err (LoadProject (workspace.world E)
                         (Join (workspace.world E) [wd; workspace.Path pck]));
       Ok (projects ++ [p]))
    acc pcks ≠ Err e.
Proof.
  revert acc; induction pcks as [|pck pcks IH]; intros acc; [done|].
  rewrite for_each_cons. intros Hloop.
  apply bind_Err_inv in Hloop as [Hbody|(acc' & _ & Hrest)]; [|exact (IH acc' Hrest)].
  apply bind_Err_inv in Hbody as [Hload|(p & _ & [=])].
  by apply ignore_err_not_Err in Hload.
Qed.

(** X14: a workspace that [NewWorkspace] returns is rooted at the working
    directory, has a manifest, and has one member per package of the
    manifest, in order: the project loaded from the package's path under the
    working directory, or nil where loading it returned an error. *)
Theorem NewWorkspace_members_follow_manifest E wd w :
  workspace.NewWorkspace E wd = Ok w →
  workspace.AbsRoot w = wd
  ∧ ∃ m,
      workspace.Manifest_ w = Some m
      ∧ workspace.NewManifest E wd = Ok (Some m)
      ∧ Forall2
          (λ pck p,
             match p with
             | Some proj =>
                 LoadProject (workspace.world E)
                   (Join (workspace.world E) [wd; workspace.Path pck]) = Ok proj
             | None =>
                 ∃ e, LoadProject (workspace.world E)
                        (Join (workspace.world E) [wd; workspace.Path pck]) = Err e
             end)
          (workspace.Packages m) (workspace.Projects w).
Proof. apply NewWorkspace_members. Qed.

Lemma NewLock_Ok_or_Panic E wd :
  (∃ l, workspace.NewLock E wd = Ok l) ∨ workspace.NewLock E wd = Panic.
Proof.
  unfold workspace.NewLock.
  destruct (Open (workspace.world E) _) as [mf|e|]; [|left; by eexists|by right].
  destruct (workspace.ReadLock E mf); cbn [ignore_err];
    [left; by eexists..|by right].
Qed.

(** X15: [NewWorkspace] never returns an error, so the error check that
    follows it in [Run] is never taken. *)
Theorem NewWorkspace_never_returns_error E wd e :
  workspace.NewWorkspace E wd ≠ Err e.
Proof.
  intros Herr. unfold workspace.NewWorkspace in Herr.
  apply bind_Err_inv in Herr as [Hm|(m & _ & Herr)];
    [by apply ignore_err_not_Err in Hm|].
  apply bind_Err_inv in Herr as [Hl|(l & _ & Herr)].
  { unfold workspace.NewLock in Hl.
    destruct (Open (workspace.world E) _); [|done..].
    by apply ignore_err_not_Err in Hl. }
  apply bind_Err_inv in Herr as [Hp|(projects & _ & [=])].
  unfold workspace.getProjects in Hp.
  apply bind_Err_inv in Hp as [Hd|(m' & _ & Hloop)]; [by destruct m|].
  by apply getProjects_loop_not_Err in Hloop.
Qed.

(** X16: in a directory whose [Gows.toml] cannot be read and parsed,
    [NewWorkspace] dereferences the nil manifest: it panics, and so does
    [Run], before anything is printed or handed to a collaborator. *)
Theorem NewWorkspace_panics_without_manifest E K (dryRun : bool) ctx args log :
  (∀ buf raw,
     Open (workspace.world E)
       (Join (workspace.world E) [workspace.WorkingDir ctx; workspace.ManifestName])
     = Ok buf →
     workspace.Unmarshal E buf ≠ Ok raw) →
  workspace.NewWorkspace E (workspace.WorkingDir ctx) = Panic
  ∧ workspace.Run E K dryRun ctx args log = (log, Panic).
Proof.
  intros Hno.
  assert (Hnew : workspace.NewWorkspace E (workspace.WorkingDir ctx) = Panic).
  { unfold workspace.NewWorkspace, workspace.NewManifest, workspace.readManifest.
    destruct (Open (workspace.world E) _) as [buf|e|] eqn:Hopen; cbn [ignore_err];
      [|rewrite bind_Ok|done].
    - destruct (workspace.Unmarshal E buf) as [raw|e|] eqn:Hraw; cbn [ignore_err];
        [by destruct (Hno buf raw eq_refl)|rewrite bind_Ok|done];
        by destruct (NewLock_Ok_or_Panic E (workspace.WorkingDir ctx)) as [[l ->]| ->].
    - by destruct (NewLock_Ok_or_Panic E (workspace.WorkingDir ctx)) as [[l ->]| ->]. }
  split; [exact Hnew|].
  unfold workspace.Run. rewrite prog_bind_eq. unfold workspace.lift at 1.
  by rewrite Hnew.
Qed.

(** A package of the manifest whose project failed to load is a nil
    member of the workspace. *)
Lemma failed_member_is_nil E wd w m pck e :
  workspace.NewWorkspace E wd = Ok w →
  workspace.Manifest_ w = Some m →
  pck ∈ workspace.Packages m →
  LoadProject (workspace.world E)
    (Join (workspace.world E) [wd; workspace.Path pck]) = Err e →
  None ∈ workspace.Projects w.
Proof.
  intros Hnew Hm Hpck Hload.
  destruct (NewWorkspace_members E wd Hnew) as (_ & m' & Hm' & _ & Hall).
  rewrite Hm in Hm'. injection Hm' as <-.
  apply list_elem_of_lookup in Hpck as [i Hi].
  destruct (Forall2_lookup_l _ _ _ _ _ Hall Hi) as (p & Hp & Hrel).
  destruct p as [proj|]; [congruence|]. by apply list_elem_of_lookup_2 in Hp.
Qed.

(** X17: a member listed in the manifest whose project failed to load is a
    nil entry of the workspace, and each of the four aggregations over the
    members panics on it. *)
Theorem failed_member_makes_aggregations_panic E wd w m pck e :
  workspace.NewWorkspace E wd = Ok w →
  workspace.Manifest_ w = Some m →
  pck ∈ workspace.Packages m →
  LoadProject (workspace.world E)
    (Join (workspace.world E) [wd; workspace.Path pck]) = Err e →
  None ∈ workspace.Projects w
  ∧ workspace.DependencyConstraints w = Panic
  ∧ workspace.Overrides w = Panic
  ∧ workspace.RequiredPackages w = Panic
  ∧ workspace.ParseRootPackageTree w = Panic.
Proof.
  intros Hnew Hm Hpck Hload.
  pose proof (@failed_member_is_nil E wd w m pck e Hnew Hm Hpck Hload) as Hnil.
  split; [exact Hnil|].
  destruct (elem_of_nil_member Hnil) as (ps & rest & Hsplit).
  split; [by apply (aggregate_nil_member _ w ps rest)|].
  split; [by apply (aggregate_nil_member _ w ps rest)|].
  split.
  - unfold workspace.RequiredPackages. rewrite Hsplit.
    generalize (∅ : gmap string bool).
    clear. induction ps as [|p ps IH]; intros acc; [done|].
    cbn [fmap list_fmap app]. rewrite for_each_cons. cbn [deref].
    rewrite !bind_Ok. apply IH.
  - unfold workspace.ParseRootPackageTree. rewrite Hsplit.
    change (for_each _ ∅ ((Some <$> ps) ++ None :: rest))
      with (kdep.overlay ∅ ((Some <$> ps) ++ None :: rest)).
    by rewrite overlay_nil_sub.
Qed.

End WorkspaceEdges.

(** *** Concrete workspaces *)

Lemma merge_any_iteration_order_witness :
  foldl workspace.merge_entry {[ "A" := gps.mkProps "" CAny ]}
    (reverse (map_to_list
       ({[ "A" := gps.mkProps "" (CVersion "1.0.0"); "B" := gps.mkProps "" CAny ]}
          : gps.ProjectConstraints VConstraint)))
  = range_map workspace.merge_entry {[ "A" := gps.mkProps "" CAny ]}
      {[ "A" := gps.mkProps "" (CVersion "1.0.0"); "B" := gps.mkProps "" CAny ]}.
Proof.
  apply merge_any_iteration_order. apply reverse_Permutation.
Defined.

Lemma workspace_tables_hold_first_declaration_witness :
  ∃ t, workspace.DependencyConstraints w_conflict = Ok t
       ∧ t !! "A" = Some (gps.mkProps "" (CVersion "1.0.0")).
Proof.
  destruct (@workspace_tables_hold_first_declaration _ _ w_conflict
              [ project_at "a"
                  (manifest_of {[ "A" := gps.mkProps "" (CVersion "1.0.0") ]}) ∅;
                project_at "b"
                  (manifest_of {[ "A" := gps.mkProps "" (CVersion "2.0.0") ]}) ∅ ]
              "A" eq_refl) as (t & o & Ht & _ & HA & _).
  exists t. split; [exact Ht|]. rewrite HA. reflexivity.
Defined.

(** Two members: the first requires [tool], the second lists it as not
    required. *)
Definition requires (root : string) (v : bool) : dep.Project VConstraint :=
  dep.mkProject root root root (dep.mkManifest ∅ ∅ [] {[ "tool" := v ]}) None
    (gps.mkTree root ∅, None).

Lemma RequiredPackages_last_declaration_wins_witness :
  ∃ required,
    workspace.RequiredPackages (workspace_of "/ws" [requires "a" true; requires "b" false])
    = Ok required
    ∧ required !! "tool" = Some false.
Proof.
  destruct (@RequiredPackages_last_declaration_wins _
              (workspace_of "/ws" [requires "a" true; requires "b" false])
              [requires "a" true; requires "b" false] eq_refl)
    as (required & Hreq & Hlook).
  exists required. split; [exact Hreq|]. rewrite Hlook. reflexivity.
Defined.

Lemma NewWorkspace_members_follow_manifest_witness :
  workspace.AbsRoot w_disk = "/ws"
  ∧ ∃ m, workspace.Manifest_ w_disk = Some m
         ∧ length (workspace.Packages m) = length (workspace.Projects w_disk).
Proof.
  destruct (@NewWorkspace_members_follow_manifest _ (env_of disk_conflict)
              "/ws" w_disk eq_refl) as (Hroot & m & Hm & _ & Hall).
  split; [exact Hroot|]. exists m. split; [exact Hm|].
  exact (Forall2_length _ _ _ Hall).
Defined.

Lemma NewWorkspace_panics_without_manifest_witness :
  workspace.Run (env_of ∅) (K_accept (λ _, false)) false
    (workspace.mkCtx "/elsewhere" true) [] []
  = ([], Panic).
Proof.
  destruct (@NewWorkspace_panics_without_manifest _ (env_of ∅)
              (K_accept (λ _, false)) false
              (workspace.mkCtx "/elsewhere" true) [] []) as [_ Hrun].
  - intros buf raw Hopen. vm_compute in Hopen. discriminate Hopen.
  - exact Hrun.
Defined.

(** The workspace built where only the member [a] is on disk. *)
Definition w_missing_b : workspace.Workspace VConstraint :=
  workspace.mkWorkspace "/ws" None
    (Some (workspace.fromRawManifest flags0
             (workspace.mkRawManifest
                [workspace.mkRawPackage "a" "a"; workspace.mkRawPackage "b" "b"])))
    [Some member_a; None].

Lemma failed_member_makes_aggregations_panic_witness :
  workspace.DependencyConstraints w_missing_b = Panic
  ∧ workspace.ParseRootPackageTree w_missing_b = Panic.
Proof.
  destruct (@failed_member_makes_aggregations_panic _ _
              (env_of {[ "/ws/a" := member_a ]}) "/ws" w_missing_b
              (workspace.fromRawManifest flags0
                 (workspace.mkRawManifest
                    [workspace.mkRawPackage "a" "a"; workspace.mkRawPackage "b" "b"]))
              (workspace.mkRawPackage "b" "b") "no project")
    as (_ & Hdeps & _ & _ & Htree);
    try (vm_compute; reflexivity);
    try (apply list_elem_of_further, list_elem_of_here).
  split; [exact Hdeps|exact Htree].
Defined.

(** ** Further properties of the workspace command *)

Section RunEdges.
Context {C : Type} `{!gps.Constraint C}.
#[local] Existing Instances workspace.prog_bind workspace.prog_ret.
Implicit Types (E : workspace.Env C) (K : workspace.Collab C)
  (w : workspace.Workspace C) (ctx : workspace.Ctx)
  (log more : list (workspace.event (C:=C)))
  (P : workspace.event (C:=C) → Prop).

(** Creating a symbolic link or a directory. *)
Definition is_link (ev : workspace.event (C:=C)) : Prop :=
  match ev with
  | workspace.Symlink _ _ | workspace.MkdirAll _ => True
  | _ => False
  end.

(** Whatever the safe writer or [Run] itself puts on disk. *)
Definition is_write (ev : workspace.event (C:=C)) : Prop :=
  match ev with
  | workspace.SafeWrite _ | workspace.Symlink _ _ | workspace.MkdirAll _ => True
  | _ => False
  end.

(** An action on the solution: reporting it, writing it or linking it. *)
Definition is_output (ev : workspace.event (C:=C)) : Prop :=
  match ev with
  | workspace.PrintPreparedActions | workspace.SafeWrite _
  | workspace.Symlink _ _ | workspace.MkdirAll _ => True
  | _ => False
  end.

Definition any {A} (o : outcome A) : Prop := True.

(** The call returns an error or panics. *)
Definition fails {A} (o : outcome A) : Prop := ∀ a, o ≠ Ok a.

(** The computation appends only events that satisfy [P], and ends in an
    outcome that satisfies [Q]. *)
Definition emits {A} P (Q : outcome A → Prop) (m : workspace.prog (C:=C) A) : Prop :=
  ∀ log, ∃ more, (m log).1 = log ++ more ∧ Forall P more ∧ Q (m log).2.

Lemma emits_ret {A} P (Q : outcome A → Prop) (a : A) :
  Q (Ok a) → emits P Q (mret a).
Proof. intros HQ log. exists []. by rewrite app_nil_r. Qed.

Lemma emits_lift {A} P (Q : outcome A → Prop) (o : outcome A) :
  Q o → emits P Q (workspace.lift o).
Proof. intros HQ log. exists []. by rewrite app_nil_r. Qed.

Lemma emits_emit P (Q : outcome unit → Prop) ev :
  P ev → Q (Ok tt) → emits P Q (workspace.emit ev).
Proof. intros HP HQ log. exists [ev]. repeat split; [by constructor|done]. Qed.

Lemma emits_check P (Q : outcome unit → Prop) err :
  Q (Ok tt) → (∀ e, Q (Err e)) → emits P Q (workspace.check err).
Proof.
  intros Hok Herr. destruct err as [e|]; [by apply emits_lift|by apply emits_ret].
Qed.

Lemma emits_bind {A B} P (Q : outcome B → Prop)
    (m : workspace.prog A) (k : A → workspace.prog B) :
  emits P any m → (∀ a, emits P Q (k a)) → (∀ e, Q (Err e)) → Q Panic →
  emits P Q (m ≫= k).
Proof.
  intros Hm Hk Herr Hpanic log. rewrite prog_bind_eq.
  destruct (Hm log) as (more & Hlog & Hall & _).
  destruct (m log) as [log' [a|e|]]; cbn [fst] in Hlog; subst log'.
  - destruct (Hk a (log ++ more)) as (more' & Hlog' & Hall' & HQ).
    exists (more ++ more'). rewrite Hlog', app_assoc.
    split; [done|]. split; [by apply Forall_app|done].
  - exists more. split; [done|]. split; [done|apply Herr].
  - exists more. split; [done|]. split; [done|apply Hpanic].
Qed.

(** What follows a call that fails is not run. *)
Lemma emits_stop {A B} P (m : workspace.prog A) (k : A → workspace.prog B) :
  emits P fails m → emits P fails (m ≫= k).
Proof.
  intros Hm log. rewrite prog_bind_eq.
  destruct (Hm log) as (more & Hlog & Hall & Hfail).
  destruct (m log) as [log' [a|e|]]; cbn [fst snd] in *; subst log'.
  - by destruct (Hfail a).
  - exists more. by repeat split.
  - exists more. by repeat split.
Qed.

Lemma emits_weaken {A} P P' (Q Q' : outcome A → Prop) (m : workspace.prog A) :
  (∀ ev, P ev → P' ev) → (∀ o, Q o → Q' o) → emits P Q m → emits P' Q' m.
Proof.
  intros HP HQ Hm log. destruct (Hm log) as (more & Hlog & Hall & Hout).
  exists more. split; [done|]. split; [|by apply HQ].
  eapply Forall_impl; [exact Hall|exact HP].
Qed.

Lemma emits_for_each {S A} P (body : S → A → workspace.prog S) s xs :
  (∀ s x, emits P any (body s x)) → emits P any (for_each body s xs).
Proof.
  intros Hbody. revert s; induction xs as [|x xs IH]; intros s.
  - by apply emits_ret.
  - cbn [for_each]. by apply emits_bind.
Qed.

Lemma emits_validate_roots P K w : emits P any (workspace.validate_roots K w).
Proof.
  apply emits_for_each. intros [] p.
  apply emits_bind; [by apply emits_lift| |done..].
  intros p'. by apply emits_check.
Qed.

Lemma emits_check_packages P K ctx params w :
  (∀ msg, P (workspace.Println msg)) →
  emits P any (workspace.check_packages K ctx params w).
Proof.
  intros Hprint. apply emits_for_each. intros [] p.
  apply emits_bind; [by apply emits_lift| |done..].
  intros p'. destruct (workspace.checkErrors K _ _) as [fatal [e|]];
    [|by apply emits_ret].
  destruct fatal; [by apply emits_lift|].
  destruct (workspace.Verbose ctx); [by apply emits_emit|by apply emits_ret].
Qed.

(** The three actions of [Run] for one package of the manifest. *)
Definition links E w (p : workspace.rawPackage) : list (workspace.event (C:=C)) :=
  let vendorPath := Join (workspace.world E) [workspace.AbsRoot w; "vendor"] in
  let projectRoot := Join (workspace.world E) [workspace.AbsRoot w; workspace.Path p] in
  let vendorProjectPath := Join (workspace.world E) [vendorPath; workspace.Name p] in
  let vendorProjectDirPath := Dir (workspace.world E) vendorProjectPath in
  [ workspace.Symlink (Rel (workspace.world E) projectRoot vendorPath)
      (Join (workspace.world E) [projectRoot; "vendor"]);
    workspace.MkdirAll vendorProjectDirPath;
    workspace.Symlink (Rel (workspace.world E) vendorProjectDirPath projectRoot)
      vendorProjectPath ].

Lemma link_vendor_log E w (m : workspace.Manifest) log :
  workspace.link_vendor E w m log
  = (log ++ flat_map (links E w) (workspace.Packages m), Ok tt).
Proof.
  unfold workspace.link_vendor. cbv zeta.
  match goal with |- context [for_each ?b tt _] => set (body := b) end.
  assert (Hbody : ∀ u p log', body u p log' = (log' ++ links E w p, Ok tt)).
  { intros [] p log'. unfold body, links. rewrite !prog_bind_eq.
    unfold workspace.emit at 1. cbv beta iota zeta. rewrite !prog_bind_eq.
    unfold workspace.emit. cbv beta iota zeta. by rewrite <- !app_assoc. }
  clearbody body. revert log.
  induction (workspace.Packages m) as [|p pcks IH]; intros log.
  - cbn [for_each flat_map]. by rewrite prog_ret_eq, app_nil_r.
  - cbn [for_each flat_map]. rewrite prog_bind_eq, Hbody, IH.
    by rewrite app_assoc.
Qed.

Lemma emits_bind_lift {A B} P (Q : outcome B → Prop) (o : outcome A)
    (k : A → workspace.prog B) :
  (∀ a, o = Ok a → emits P Q (k a)) → (∀ e, Q (Err e)) → Q Panic →
  emits P Q (workspace.lift o ≫= k).
Proof.
  intros Hk Herr Hpanic log. rewrite prog_bind_eq. unfold workspace.lift.
  destruct o as [a|e|].
  - apply (Hk a eq_refl).
  - exists []. rewrite app_nil_r. split; [done|]. split; [done|apply Herr].
  - exists []. rewrite app_nil_r. split; [done|]. split; [done|apply Hpanic].
Qed.

Lemma emits_bind_check {B} P (Q : outcome B → Prop) err
    (k : unit → workspace.prog B) :
  (err = None → emits P Q (k tt)) → (∀ e, Q (Err e)) →
  emits P Q (workspace.check err ≫= k).
Proof.
  intros Hk Herr log. rewrite prog_bind_eq.
  destruct err as [e|]; cbn [workspace.check].
  - unfold workspace.lift. exists []. rewrite app_nil_r.
    split; [done|]. split; [done|apply Herr].
  - rewrite prog_ret_eq. apply (Hk eq_refl).
Qed.

(** The tail of [Run], from the preparation of the solver on: what it
    appends is [Prepare], [Solve] and, only when the solver was prepared,
    found a solution and the safe writer was created, what the last step
    appends. *)
Lemma emits_solve_and_write P E K (dryRun : bool) w params :
  P (workspace.Prepare params) → P (workspace.Solve params) →
  (∀ solution m,
     workspace.gpsPrepare K params = None →
     workspace.solverSolve K params = Ok solution →
     workspace.Manifest_ w = Some m →
     emits P any
       (if dryRun then
          _ ← workspace.emit workspace.PrintPreparedActions;
          workspace.check (workspace.swPrintPreparedActions K)
        else
          _ ← workspace.emit (workspace.SafeWrite (workspace.AbsRoot w));
          _ ← workspace.check
                ((λ e, Wrap e "grouped write of manifest, lock and vendor")
                   <$> workspace.swWrite K (workspace.AbsRoot w));
          workspace.link_vendor E w m)) →
  emits P any (solve_and_write E K dryRun w params).
Proof.
  intros Hprep Hsolve Hout. unfold solve_and_write, after_prepare.
  apply emits_bind; [by apply emits_emit| |done..]. intros _.
  apply emits_bind_check; [|done]. intros Hprepared.
  apply fmap_None in Hprepared.
  apply emits_bind; [by apply emits_emit| |done..]. intros _.
  destruct (workspace.solverSolve K params) as [solution|e|] eqn:Hsol;
    [|by apply emits_check|by apply emits_lift].
  apply emits_bind_lift; [|done..]. intros m Hm.
  apply emits_bind; [by apply emits_check| |done..]. intros _.
  apply (Hout solution m Hprepared eq_refl).
  by destruct (workspace.Manifest_ w) as [m'|]; [injection Hm as ->|].
Qed.

(** [Run], up to the preparation of the solver: it appends nothing but
    printed warnings, and goes on to the solver only without arguments. *)
Lemma emits_Run P (Q : outcome unit → Prop) E K (dryRun : bool) ctx args :
  (∀ msg, P (workspace.Println msg)) →
  (∀ e, Q (Err e)) → Q Panic →
  (args = [] → ∀ w params, emits P Q (solve_and_write E K dryRun w params)) →
  emits P Q (workspace.Run E K dryRun ctx args).
Proof.
  intros Hprint Herr Hpanic Htail. unfold workspace.Run.
  apply emits_bind_lift; [|done..]. intros w Hw.
  apply emits_bind; [by apply emits_check| |done..]. intros _.
  apply emits_bind; [apply emits_validate_roots| |done..]. intros _.
  cbv zeta.
  apply emits_bind_lift; [|done..]. intros tree Htree.
  apply emits_bind; [by apply emits_check_packages| |done..]. intros _.
  destruct args as [|a args]; cbn [length].
  - rewrite bool_decide_false by (intros Hne; by apply Hne).
    apply emits_bind; [by apply emits_ret| |done..]. intros _.
    apply emits_bind; [by apply emits_check| |done..]. intros _.
    apply (Htail eq_refl w).
  - rewrite bool_decide_true by done.
    apply emits_bind_lift; [|done..]. by intros u [=].
Qed.

(** X18: with arguments on the command line, [Run] never reaches the
    solver: it returns an error (or panics) after at most printing warnings,
    and nothing is solved, reported or written. *)
Theorem Run_with_arguments_never_solves E K (dryRun : bool) ctx args log :
  args ≠ [] →
  ∃ prints,
    (workspace.Run E K dryRun ctx args log).1 = log ++ prints
    ∧ Forall is_Println prints
    ∧ ∀ u, (workspace.Run E K dryRun ctx args log).2 ≠ Ok u.
Proof.
  intros Hargs.
  assert (Hrun : emits is_Println fails (workspace.Run E K dryRun ctx args)).
  { apply emits_Run; try done. intros msg. by exists msg. }
  destruct (Hrun log) as (prints & Hlog & Hall & Hfail). by exists prints.
Qed.

(** X19: a dry run writes nothing: whatever the collaborators answer, no
    grouped write, symbolic link or directory creation is among the actions
    of [Run -dry-run]. *)
Theorem dry_run_writes_nothing E K ctx args log :
  ∃ more,
    (workspace.Run E K true ctx args log).1 = log ++ more
    ∧ Forall (λ ev, ¬ is_write ev) more.
Proof.
  assert (Hrun : emits (λ ev, ¬ is_write ev) any (workspace.Run E K true ctx args)).
  { apply emits_Run; [by intros msg []|done..|].
    intros _ w params. apply emits_solve_and_write; [by intros []..|].
    intros solution m _ _ _.
    apply emits_bind; [apply emits_emit; [by intros []|done]| |done..].
    intros _. by apply emits_check. }
  destruct (Hrun log) as (more & Hlog & Hall & _). by exists more.
Qed.

(** X20: when the grouped write of the solution fails, [Run] creates no
    symbolic link and no directory. *)
Theorem failed_write_creates_no_links E K (dryRun : bool) ctx args log :
  (∀ root, workspace.swWrite K root ≠ None) →
  ∃ more,
    (workspace.Run E K dryRun ctx args log).1 = log ++ more
    ∧ Forall (λ ev, ¬ is_link ev) more.
Proof.
  intros Hwrite.
  assert (Hrun : emits (λ ev, ¬ is_link ev) any (workspace.Run E K dryRun ctx args)).
  { apply emits_Run; [by intros msg []|done..|].
    intros _ w params. apply emits_solve_and_write; [by intros []..|].
    intros solution m _ _ _. destruct dryRun.
    - apply emits_bind; [apply emits_emit; [by intros []|done]| |done..].
      intros _. by apply emits_check.
    - apply emits_bind; [apply emits_emit; [by intros []|done]| |done..].
      intros _. apply emits_bind_check; [|done].
      intros Hnone. apply fmap_None in Hnone. by destruct (Hwrite _ Hnone). }
  destruct (Hrun log) as (more & Hlog & Hall & _). by exists more.
Qed.

(** X21: when the solver cannot be prepared or finds no solution, [Run]
    neither reports prepared actions nor writes or links anything. *)
Theorem failed_solve_outputs_nothing E K (dryRun : bool) ctx args log :
  (∀ params,
     workspace.gpsPrepare K params ≠ None
     ∨ ∀ solution, workspace.solverSolve K params ≠ Ok solution) →
  ∃ more,
    (workspace.Run E K dryRun ctx args log).1 = log ++ more
    ∧ Forall (λ ev, ¬ is_output ev) more.
Proof.
  intros Hfail.
  assert (Hrun : emits (λ ev, ¬ is_output ev) any (workspace.Run E K dryRun ctx args)).
  { apply emits_Run; [by intros msg []|done..|].
    intros _ w params. apply emits_solve_and_write; [by intros []..|].
    intros solution m Hprep Hsol _.
    destruct (Hfail params) as [Hp|Hs]; [done|by destruct (Hs solution)]. }
  destruct (Hrun log) as (more & Hlog & Hall & _). by exists more.
Qed.

(** X22: a run without arguments in which every check passes, the solver
    finds a solution and the grouped write succeeds does, after the printed
    warnings, exactly this: prepare the solver on the workspace and its
    tree, solve, write once at the workspace root, and link the vendor
    directories of the manifest's packages; and it returns no error. *)
Theorem successful_run_writes_then_links E K ctx w ps tree m solution :
  workspace.NewWorkspace E (workspace.WorkingDir ctx) = Ok w →
  workspace.Projects w = Some <$> ps →
  workspace.Manifest_ w = Some m →
  workspace.ParseRootPackageTree w = Ok tree →
  workspace.SourceManager K = None →
  (∀ p, p ∈ ps → workspace.ValidateProjectRoots K (dep.Manifest_ p) = None) →
  (∀ p, p ∈ ps →
     (workspace.checkErrors K (gps.Packages tree)
        (dep.IgnoredPackages (dep.Manifest_ p))).1 = false) →
  workspace.ValidateParams K (run_params ctx w tree) = None →
  workspace.gpsPrepare K (run_params ctx w tree) = None →
  workspace.solverSolve K (run_params ctx w tree) = Ok solution →
  workspace.NewSafeWriter K (workspace.Lock w) solution (workspace.PruneOptions m)
    = None →
  workspace.swWrite K (workspace.AbsRoot w) = None →
  ∃ prints,
    workspace.Run E K false ctx [] []
    = (prints
         ++ [ workspace.Prepare (run_params ctx w tree);
              workspace.Solve (run_params ctx w tree);
              workspace.SafeWrite (workspace.AbsRoot w) ]
         ++ flat_map (links E w) (workspace.Packages m),
       Ok tt)
    ∧ Forall is_Println prints.
Proof.
  intros Hnew Hw Hm Htree Hsm Hroots Hcheck Hvalid Hprep Hsol Hsw Hwrite.
  rewrite (@Run_unfold _ E K false ctx [] w tree Hnew Hsm
             (@validate_roots_ok _ K w ps [] Hw Hroots) Htree).
  destruct (@check_packages_nonfatal _ K ctx (run_params ctx w tree) w ps [] Hw)
    as (prints & Hrun & Hprints); [exact Hcheck|].
  exists prints. split; [|done].
  rewrite prog_bind_eq, Hrun. cbn [app].
  rewrite prog_bind_eq. rewrite bool_decide_false by (simpl; lia).
  rewrite prog_ret_eq.
  rewrite prog_bind_eq, Hvalid. cbn [workspace.check]. rewrite prog_ret_eq.
  unfold solve_and_write, after_prepare.
  rewrite prog_bind_eq. unfold workspace.emit at 1. cbv beta iota.
  rewrite prog_bind_eq, Hprep. cbn [fmap option_fmap option_map workspace.check].
  rewrite prog_ret_eq.
  rewrite prog_bind_eq. unfold workspace.emit at 1. cbv beta iota.
  rewrite Hsol.
  rewrite prog_bind_eq, Hm. cbn [deref]. unfold workspace.lift at 1. cbv beta iota.
  rewrite prog_bind_eq, Hsw. cbn [workspace.check]. rewrite prog_ret_eq.
  rewrite prog_bind_eq. unfold workspace.emit at 1. cbv beta iota.
  rewrite prog_bind_eq, Hwrite. cbn [fmap option_fmap option_map workspace.check].
  rewrite prog_ret_eq.
  rewrite link_vendor_log. by rewrite <- !app_assoc.
Qed.

(** The validation loop dereferences a nil member. *)
Lemma validate_roots_nil_member K w log :
  None ∈ workspace.Projects w →
  ∃ o, workspace.validate_roots K w log = (log, o) ∧ fails o.
Proof.
  intros Hnil. destruct (elem_of_nil_member Hnil) as (ps & rest & Hsplit).
  unfold workspace.validate_roots. rewrite Hsplit. clear.
  induction ps as [|p ps IH]; cbn [fmap list_fmap app for_each];
    rewrite !prog_bind_eq; cbn [deref workspace.lift].
  - by exists Panic.
  - destruct (workspace.ValidateProjectRoots K (dep.Manifest_ p)) as [e|];
      cbn [workspace.check].
    + by exists (Err e).
    + rewrite prog_ret_eq. apply IH.
Qed.

(** X23: when the project of a package of the manifest fails to load,
    [Run] cannot succeed: it returns the error of an earlier check or panics
    on the nil member while validating the project roots, before anything is
    printed, solved or written. *)
Theorem Run_with_failed_member_never_solves
    E K (dryRun : bool) ctx args log w m pck e :
  workspace.NewWorkspace E (workspace.WorkingDir ctx) = Ok w →
  workspace.Manifest_ w = Some m →
  pck ∈ workspace.Packages m →
  LoadProject (workspace.world E)
    (Join (workspace.world E) [workspace.WorkingDir ctx; workspace.Path pck])
  = Err e →
  ∃ o, workspace.Run E K dryRun ctx args log = (log, o) ∧ ∀ u, o ≠ Ok u.
Proof.
  intros Hnew Hm Hpck Hload.
  pose proof (@failed_member_is_nil _ E _ w m pck e Hnew Hm Hpck Hload) as Hnil.
  unfold workspace.Run. rewrite prog_bind_eq. unfold workspace.lift at 1.
  rewrite Hnew. rewrite prog_bind_eq.
  destruct (workspace.SourceManager K) as [e'|]; cbn [workspace.check].
  { by exists (Err e'). }
  rewrite prog_ret_eq, prog_bind_eq.
  destruct (@validate_roots_nil_member K w log Hnil) as (o & -> & Hfail).
  destruct o as [u|e'|]; [by destruct (Hfail u)|by exists (Err e')|by exists Panic].
Qed.

End RunEdges.

(** *** Concrete runs *)

(** Collaborators whose grouped write fails. *)
Definition K_write_fails : workspace.Collab VConstraint :=
  {| workspace.SourceManager := None;
     workspace.ValidateProjectRoots := λ _, None;
     workspace.checkErrors := checkErrors_spec (λ _, false) (λ _ _, false);
     workspace.ValidateParams := λ _, None;
     workspace.gpsPrepare := λ _, None;
     workspace.solverSolve := λ _, Ok [];
     workspace.handleAllTheFailuresOfTheWorld := λ e, Some e;
     workspace.NewSafeWriter := λ _ _ _, None;
     workspace.swPrintPreparedActions := None;
     workspace.swWrite := λ _, Some "disk full" |}.

(** Collaborators whose solver finds no solution. *)
Definition K_no_solution : workspace.Collab VConstraint :=
  {| workspace.SourceManager := None;
     workspace.ValidateProjectRoots := λ _, None;
     workspace.checkErrors := checkErrors_spec (λ _, false) (λ _ _, false);
     workspace.ValidateParams := λ _, None;
     workspace.gpsPrepare := λ _, None;
     workspace.solverSolve := λ _, Err "no solution";
     workspace.handleAllTheFailuresOfTheWorld := λ e, Some e;
     workspace.NewSafeWriter := λ _ _ _, None;
     workspace.swPrintPreparedActions := None;
     workspace.swWrite := λ _, None |}.

Lemma Run_with_arguments_never_solves_witness :
  ∃ prints,
    (workspace.Run (env_of disk_conflict) (K_accept (λ _, false)) false ctx_ws
       ["github.com/pkg/errors"] []).1 = prints
    ∧ Forall is_Println prints.
Proof.
  destruct (@Run_with_arguments_never_solves _ (env_of disk_conflict)
              (K_accept (λ _, false)) false ctx_ws ["github.com/pkg/errors"] [])
    as (prints & Hlog & Hall & _); [discriminate|].
  exists prints. split; [exact Hlog|exact Hall].
Defined.

Lemma failed_write_creates_no_links_witness :
  ∃ more,
    (workspace.Run (env_of disk_conflict) K_write_fails false ctx_ws [] []).1 = more
    ∧ Forall (λ ev, ¬ is_link ev) more.
Proof.
  destruct (@failed_write_creates_no_links _ (env_of disk_conflict)
              K_write_fails false ctx_ws [] [])
    as (more & Hlog & Hall); [discriminate|].
  exists more. split; [exact Hlog|exact Hall].
Defined.

Lemma failed_solve_outputs_nothing_witness :
  ∃ more,
    (workspace.Run (env_of disk_conflict) K_no_solution false ctx_ws [] []).1 = more
    ∧ Forall (λ ev, ¬ is_output ev) more.
Proof.
  destruct (@failed_solve_outputs_nothing _ (env_of disk_conflict)
              K_no_solution false ctx_ws [] [])
    as (more & Hlog & Hall); [right; discriminate|].
  exists more. split; [exact Hlog|exact Hall].
Defined.

Lemma successful_run_writes_then_links_witness :
  workspace.Run (env_of disk_conflict) (K_accept (λ _, false)) false ctx_ws [] []
  = ([ workspace.Prepare (run_params ctx_ws w_disk tree_disk);
       workspace.Solve (run_params ctx_ws w_disk tree_disk);
       workspace.SafeWrite "/ws";
       workspace.Symlink "/ws/vendor" "/ws/a/vendor";
       workspace.MkdirAll "/ws/vendor/a";
       workspace.Symlink "/ws/a" "/ws/vendor/a";
       workspace.Symlink "/ws/vendor" "/ws/b/vendor";
       workspace.MkdirAll "/ws/vendor/b";
       workspace.Symlink "/ws/b" "/ws/vendor/b" ],
     Ok tt).
Proof.
  destruct (@successful_run_writes_then_links _ (env_of disk_conflict)
              (K_accept (λ _, false)) ctx_ws w_disk [member_a; member_b] tree_disk
              (workspace.fromRawManifest flags0
                 (workspace.mkRawManifest
                    [workspace.mkRawPackage "a" "a"; workspace.mkRawPackage "b" "b"]))
              [])
    as (prints & Hrun & _); reflexivity.
Defined.

Lemma Run_with_failed_member_never_solves_witness :
  ∃ o,
    workspace.Run (env_of {[ "/ws/a" := member_a ]}) (K_accept (λ _, false)) false
      ctx_ws [] []
    = ([], o)
    ∧ ∀ u, o ≠ Ok u.
Proof.
  apply (@Run_with_failed_member_never_solves _ (env_of {[ "/ws/a" := member_a ]})
           (K_accept (λ _, false)) false ctx_ws [] [] w_missing_b
           (workspace.fromRawManifest flags0
              (workspace.mkRawManifest
                 [workspace.mkRawPackage "a" "a"; workspace.mkRawPackage "b" "b"]))
           (workspace.mkRawPackage "b" "b") "no project");
    try (vm_compute; reflexivity).
  apply list_elem_of_further, list_elem_of_here.
Defined.

(** ** Further properties of the Godeps export *)



Lemma prefix_refl (s : string) : String.prefix s s = true.
Proof.
  induction s as [|a s IH]; simpl; [done|].
  destruct (Ascii.ascii_dec a a); [exact IH|done].
Qed.

(** The first [n] bytes of a string are a prefix of it. *)
Lemma prefix_substring (n : nat) (s : string) :
  String.prefix (String.substring 0 n s) s = true.
Proof.
  revert s; induction n as [|n IH]; intros [|a s]; simpl; try done.
  destruct (Ascii.ascii_dec a a); [apply IH|done].
Qed.

Section GodepsEdges.
Context {C D : Type} `{!gps.Constraint C} `{!SortSlice}.
Implicit Types (E : kdep.Env C D) (kp : kdep.Project C D) (s : gps.Solution)
  (fs : gmap string string) (base : dep.Project C).

(** The entry exported for the package [pkg] of a locked project. *)
Definition godep_of E (lp : gps.LockedProject) (pkg : string) : kdep.godep :=
  kdep.mkDependency (Join (kdep.world E) [gps.ProjectRoot lp; pkg])
    (gps.ver (gps.Version_ lp)) (gps.rev (gps.Version_ lp)).

Lemma project_deps_godep_of E lp :
  kdep.project_deps E lp = godep_of E lp <$> gps.Pkgs lp.
Proof.
  unfold kdep.project_deps, gps.VersionComponentStrings, godep_of.
  apply map_ext. intros pkg. case_bool_decide as Hver; [done|].
  cbn [kdep.depImportPath kdep.Rev].
  destruct (decide (gps.ver (gps.Version_ lp) = "")) as [->|Hne]; [done|].
  by destruct Hver.
Qed.

(** What [HackGodepsCompat] does when the export is on. *)
Lemma HackGodepsCompat_on E kp base s fs :
  kdep.Project_ kp = Some base →
  kdep.GodepCompat (kdep.Meta_ (kdep.Manifest_ kp)) = true →
  kdep.HackGodepsCompat E false kp s fs
  = kdep.dumpToFile E
      (kdep.mkGodeps "GENERATED BY DEP, DO NOT EDIT" (dep.ImportRoot base)
         (flat_map (kdep.project_deps E) s))
      (Join (kdep.world E) [dep.AbsRoot base; "Godeps"; "Godeps.json"]) fs.
Proof.
  intros Hbase Hcompat. unfold kdep.HackGodepsCompat.
  rewrite Hcompat, Hbase. cbn [negb orb]. by rewrite foldl_project_deps.
Qed.

(** X24: [HackGodepsCompat] changes the file system at
    [Godeps/Godeps.json] under the project root and nowhere else.  That
    file is left as it was (the export is off, marshalling failed or the
    file could not be opened), or it holds a prefix of the marshalled
    content: all of it when the call returns normally, and the bytes written
    before the error when [ioutil.WriteFile] fails after opening the file. *)
Theorem HackGodepsCompat_touches_only_Godeps_json
    E (flag : bool) kp base s fs fs' (o : outcome unit) :
  kdep.Project_ kp = Some base →
  kdep.HackGodepsCompat E flag kp s fs = (fs', o) →
  let path := Join (kdep.world E) [dep.AbsRoot base; "Godeps"; "Godeps.json"] in
  (∀ other, other ≠ path → fs' !! other = fs !! other)
  ∧ (fs' !! path = fs !! path
     ∨ ∃ js c,
         kdep.MarshalIndent E
           (kdep.mkGodeps "GENERATED BY DEP, DO NOT EDIT" (dep.ImportRoot base)
              (sort_Slice kdep.less (flat_map (kdep.project_deps E) s))) = Ok js
         ∧ String.prefix c js = true
         ∧ fs' !! path = Some c
         ∧ (o = Ok tt → c = js)).
Proof.
  intros Hbase Hrun path.
  destruct (flag || negb (kdep.GodepCompat (kdep.Meta_ (kdep.Manifest_ kp))))
    eqn:Hoff.
  { unfold kdep.HackGodepsCompat in Hrun. rewrite Hoff in Hrun.
    injection Hrun as <- <-. split; [done|by left]. }
  apply orb_false_elim in Hoff as [-> Hcompat]. apply negb_false_iff in Hcompat.
  rewrite (HackGodepsCompat_on E kp s fs Hbase Hcompat) in Hrun.
  unfold kdep.dumpToFile in Hrun.
  cbn [kdep.Comment kdep.ImportPath kdep.Deps] in Hrun. fold path in Hrun.
  destruct (kdep.MarshalIndent E _) as [js|e|] eqn:Hjs.
  - destruct (kdep.WriteErr E path) as [[e [n|]]|]; injection Hrun as <- <-.
    + split; [intros other Hne; by rewrite lookup_insert_ne|].
      right. exists js, (String.substring 0 n js).
      split; [done|]. split; [apply prefix_substring|].
      split; [by rewrite lookup_insert_eq|done].
    + split; [done|by left].
    + split; [intros other Hne; by rewrite lookup_insert_ne|].
      right. exists js, js.
      split; [done|]. split; [apply prefix_refl|].
      split; [by rewrite lookup_insert_eq|done].
  - injection Hrun as <- <-. split; [done|by left].
  - injection Hrun as <- <-. split; [done|by left].
Qed.

(** X25: the file written by a successful export is the marshalling of a
    value that names the project, and lists one entry for each package of
    each locked project of the solution and no other: the entry's import
    path is the project root joined with the package, its revision and its
    comment are the revision and the version string of the locked project
    (the branch is not exported). *)
Theorem godeps_entries_follow_solution E kp base s fs fs' :
  kdep.Project_ kp = Some base →
  kdep.GodepCompat (kdep.Meta_ (kdep.Manifest_ kp)) = true →
  kdep.HackGodepsCompat E false kp s fs = (fs', Ok tt) →
  ∃ gd js,
    kdep.MarshalIndent E gd = Ok js
    ∧ fs' !! Join (kdep.world E) [dep.AbsRoot base; "Godeps"; "Godeps.json"] = Some js
    ∧ kdep.Comment gd = "GENERATED BY DEP, DO NOT EDIT"
    ∧ kdep.ImportPath gd = dep.ImportRoot base
    ∧ length (kdep.Deps gd) = length (flat_map gps.Pkgs s)
    ∧ ∀ d, d ∈ kdep.Deps gd
           ↔ ∃ lp pkg, lp ∈ s ∧ pkg ∈ gps.Pkgs lp ∧ d = godep_of E lp pkg.
Proof.
  intros Hbase Hcompat. rewrite (HackGodepsCompat_on E kp s fs Hbase Hcompat).
  unfold kdep.dumpToFile. cbn [kdep.Comment kdep.ImportPath kdep.Deps].
  set (gd := kdep.mkGodeps _ _ _).
  destruct (kdep.MarshalIndent E gd) as [js| |] eqn:Hjs; [|done..].
  destruct (kdep.WriteErr E _) as [[e [n|]]|]; [done..|]. intros [= <-].
  exists gd, js. split; [done|]. split; [by rewrite lookup_insert_eq|].
  do 2 (split; [done|]). subst gd. cbn [kdep.Deps].
  pose proof (sort_Slice_perm kdep.less (flat_map (kdep.project_deps E) s)) as Hperm.
  split.
  - rewrite <- (Permutation_length Hperm). clear. induction s as [|lp s IH]; [done|].
    cbn [flat_map]. rewrite !length_app, IH, project_deps_godep_of.
    by rewrite length_fmap.
  - intros d. rewrite <- Hperm, list_elem_of_In, in_flat_map. split.
    + intros (lp & Hlp & Hd). rewrite project_deps_godep_of in Hd.
      apply list_elem_of_In, list_elem_of_fmap in Hd as (pkg & -> & Hpkg).
      exists lp, pkg. split; [by apply list_elem_of_In|]. by split.
    + intros (lp & pkg & Hlp & Hpkg & ->). exists lp.
      split; [by apply list_elem_of_In|].
      rewrite project_deps_godep_of. apply list_elem_of_In, list_elem_of_fmap.
      by exists pkg.
Qed.

(** X26: exporting the same solution again changes nothing: when an
    export succeeds and a second export of the same solution succeeds after
    it, the second leaves the file system as the first left it. *)
Theorem repeated_godeps_export_changes_nothing E (flag : bool) kp s fs fs' fs'' :
  kdep.HackGodepsCompat E flag kp s fs = (fs', Ok tt) →
  kdep.HackGodepsCompat E flag kp s fs' = (fs'', Ok tt) →
  fs'' = fs'.
Proof.
  unfold kdep.HackGodepsCompat, kdep.dumpToFile.
  destruct (flag || negb (kdep.GodepCompat (kdep.Meta_ (kdep.Manifest_ kp)))).
  { by intros [= <-] [= <-]. }
  destruct (kdep.Project_ kp) as [base|]; [|done].
  destruct (kdep.MarshalIndent E _) as [js|e|]; [|done..].
  destruct (kdep.WriteErr E _) as [[e [n|]]|]; [done..|].
  intros [= <-] [= <-]. by rewrite insert_insert_eq.
Qed.


End GodepsEdges.

(** *** Concrete exports *)

Lemma HackGodepsCompat_touches_only_Godeps_json_witness :
  (kdep.HackGodepsCompat (kenv_of ∅ ∅) false
     (kproject (p_root ∅) (root_meta []) []) solution0
     {[ "/r/main.go" := "package main" ]}).1 !! "/r/main.go"
  = Some "package main".
Proof.
  pose proof (@HackGodepsCompat_touches_only_Godeps_json _ _ _ (kenv_of ∅ ∅) false
                (kproject (p_root ∅) (root_meta []) []) (p_root ∅) solution0
                {[ "/r/main.go" := "package main" ]} _ _ eq_refl eq_refl)
    as Hthm.
  cbv zeta in Hthm. destruct Hthm as [Hframe _].
  rewrite Hframe; [reflexivity|discriminate].
Defined.

Lemma godeps_entries_follow_solution_witness :
  ∃ gd,
    kdep.ImportPath gd = "root"
    ∧ length (kdep.Deps gd) = 3
    ∧ kdep.mkDependency "z/a" "v2.0.0" "r2" ∈ kdep.Deps gd.
Proof.
  destruct (@godeps_entries_follow_solution _ _ _ (kenv_of ∅ ∅)
              (kproject (p_root ∅) (root_meta []) []) (p_root ∅) solution0 ∅ _
              eq_refl eq_refl eq_refl)
    as (gd & js & _ & _ & _ & Hpath & Hlen & Hin).
  exists gd. split; [exact Hpath|]. split; [exact Hlen|].
  apply Hin. exists (gps.mkLP "z" (gps.mkVersion "r2" "" "v2.0.0") ["b"; "a"]), "a".
  split; [apply list_elem_of_here|].
  split; [apply list_elem_of_further, list_elem_of_here|reflexivity].
Defined.

Lemma repeated_godeps_export_changes_nothing_witness :
  (kdep.HackGodepsCompat (kenv_of ∅ ∅) false
     (kproject (p_root ∅) (root_meta []) []) solution0
     {[ "/r/Godeps/Godeps.json" := "root:y/c@r1(),z/a@r2(v2.0.0),z/b@r2(v2.0.0)" ]}).1
  = {[ "/r/Godeps/Godeps.json" := "root:y/c@r1(),z/a@r2(v2.0.0),z/b@r2(v2.0.0)" ]}.
Proof.
  apply (@repeated_godeps_export_changes_nothing _ _ _ (kenv_of ∅ ∅) false
           (kproject (p_root ∅) (root_meta []) []) solution0 ∅);
    vm_compute; reflexivity.
Defined.


(** ** Vendor entries of the local dependencies *)

Module kdep_vendor.

(** What [HackExtraVendorEntries] asks of the file system; the errors of
    both calls are dropped. *)
Inductive action :=
  | MkdirAll (dir : string)
  | Symlink (oldname newname : string).

Section WithEnv.
Context {C D : Type}.

(** The body of the loop, for the entry [imp ↦ path]. *)
Definition vendor_entry (E : kdep.Env C D) (vendorPath : string)
    (acts : list action) (e : string * string) : list action :=
  let '(imp, path) := e in
  let vendorProjectPath := Join (kdep.world E) [vendorPath; imp] in
  let vendorProjectDirPath := Dir (kdep.world E) vendorProjectPath in
  let relVendorProjectPath := Rel (kdep.world E) vendorProjectDirPath path in
  acts ++ [MkdirAll vendorProjectDirPath;
           Symlink relVendorProjectPath vendorProjectPath].

(** [HackExtraVendorEntries]: the actions asked of the file system, in
    order, and the result. *)
Definition HackExtraVendorEntries (E : kdep.Env C D) (FallbackToDep : bool)
    (p : kdep.Project C D) : list action * outcome unit :=
  if FallbackToDep then ([], Ok tt)
  else
    match kdep.Project_ p with
    | None => ([], Panic)
    | Some p' =>
        let vendorPath := Join (kdep.world E) [dep.AbsRoot p'; "vendor"] in
        (range_map (vendor_entry E vendorPath) [] (kdep.extraVendorEntries p),
         Ok tt)
    end.

End WithEnv.
End kdep_vendor.

Section VendorEntries.
Context {C D : Type} `{!gps.Constraint C}.
Implicit Types (E : kdep.Env C D) (base : dep.Project C)
  (m : kdep.Manifest C D) (res : kdep.Project C D).

(** The two actions for the local dependency [imp] found at [path]. *)
Definition vendor_actions E (vendorPath : string) (e : string * string)
  : list kdep_vendor.action :=
  [ kdep_vendor.MkdirAll (Dir (kdep.world E) (Join (kdep.world E) [vendorPath; e.1]));
    kdep_vendor.Symlink
      (Rel (kdep.world E)
         (Dir (kdep.world E) (Join (kdep.world E) [vendorPath; e.1])) e.2)
      (Join (kdep.world E) [vendorPath; e.1]) ].

Lemma foldl_vendor_entry E vendorPath (l : list (string * string)) acts :
  foldl (kdep_vendor.vendor_entry E vendorPath) acts l
  = acts ++ flat_map (vendor_actions E vendorPath) l.
Proof.
  revert acts; induction l as [|[imp path] l IH]; intros acts; cbn [foldl flat_map].
  - by rewrite app_nil_r.
  - rewrite IH. unfold kdep_vendor.vendor_entry, vendor_actions. cbn [fst snd].
    by rewrite <- app_assoc.
Qed.

(** X28: on a project that [WrapProject] returned in kdep mode,
    [HackExtraVendorEntries] returns no error, and the symbolic links it
    asks for are exactly one per local dependency that was found: the link
    is the dependency's entry under the root's [vendor] directory, and it
    points to the directory where the dependency was found.  Each link comes
    with the creation of the directory that holds it. *)
Theorem vendor_links_follow_found_dependencies E base m res acts o :
  kdep.manifestFromProject E (Some base) = Some m →
  kdep.WrapProject E false (Some base) = (false, Ok res) →
  kdep_vendor.HackExtraVendorEntries E false res = (acts, o) →
  o = Ok tt
  ∧ (∀ old new,
       kdep_vendor.Symlink old new ∈ acts
       ↔ ∃ sub proj cand,
           sub ∈ kdep.LocalDeps (kdep.Meta_ m)
           ∧ kdep.locate E (dep.ResolvedAbsRoot base) sub
               (kdep.LocalGopaths (kdep.Meta_ m)) = Ok (Some (proj, cand))
           ∧ new = Join (kdep.world E)
                     [Join (kdep.world E) [dep.AbsRoot base; "vendor"]; sub]
           ∧ old = Rel (kdep.world E) (Dir (kdep.world E) new) cand)
  ∧ (∀ old new,
       kdep_vendor.Symlink old new ∈ acts →
       kdep_vendor.MkdirAll (Dir (kdep.world E) new) ∈ acts).
Proof.
  intros Hm Hwrap.
  pose proof (λ imp, proj1 (WrapProject_tables E base imp Hm Hwrap)) as Htable.
  destruct (WrapProject_Ok_inv _ _ Hwrap)
    as (base' & m' & sps & sms & extra & ds & [= <-] & _ & _ & _ & _ & ->).
  cbn [kdep.extraVendorEntries] in Htable.
  unfold kdep_vendor.HackExtraVendorEntries. cbn [kdep.Project_ kdep.extraVendorEntries].
  unfold range_map. rewrite foldl_vendor_entry. cbn [app].
  intros [= <- <-]. split; [done|].
  set (vendorPath := Join (kdep.world E) [dep.AbsRoot base; "vendor"]).
  assert (Hin : ∀ a, a ∈ flat_map (vendor_actions E vendorPath) (map_to_list extra)
            ↔ ∃ imp cand, extra !! imp = Some cand
                          ∧ a ∈ vendor_actions E vendorPath (imp, cand)).
  { intros a. rewrite list_elem_of_In, in_flat_map. split.
    - intros ([imp cand] & He & Ha). exists imp, cand.
      split; [by apply elem_of_map_to_list, list_elem_of_In|by apply list_elem_of_In].
    - intros (imp & cand & He & Ha). exists (imp, cand).
      split; [by apply list_elem_of_In, elem_of_map_to_list|by apply list_elem_of_In]. }
  split.
  - intros old new. rewrite Hin. split.
    + intros (imp & cand & He & Ha). apply Htable in He as (Hdep & proj & Hloc).
      unfold vendor_actions in Ha. cbn [fst snd] in Ha.
      apply elem_of_cons in Ha as [[=]|Ha].
      apply list_elem_of_singleton in Ha as [= -> ->].
      by exists imp, proj, cand.
    + intros (sub & proj & cand & Hdep & Hloc & -> & ->).
      exists sub, cand. split; [apply Htable; split; [done|by exists proj]|].
      unfold vendor_actions. cbn [fst snd].
      apply list_elem_of_further, list_elem_of_here.
  - intros old new. rewrite !Hin.
    intros (imp & cand & He & Ha). exists imp, cand. split; [done|].
    unfold vendor_actions in Ha |- *. cbn [fst snd] in Ha |- *.
    apply elem_of_cons in Ha as [[=]|Ha].
    apply list_elem_of_singleton in Ha as [= -> ->]. apply list_elem_of_here.
Qed.

End VendorEntries.

Lemma vendor_links_follow_found_dependencies_witness :
  kdep_vendor.HackExtraVendorEntries kenv_x false wrapped_x
  = ([ kdep_vendor.MkdirAll "/r/vendor/x";
       kdep_vendor.Symlink "/r/gp/src/x" "/r/vendor/x" ], Ok tt).
Proof.
  destruct (@vendor_links_follow_found_dependencies _ _ kenv_x (p_root ∅)
              (kmanifest (root_meta ["x"])) wrapped_x _ _ eq_refl eq_refl eq_refl)
    as (Hok & Hlinks & Hdirs).
  reflexivity.
Defined.
